(** * Consume triggers of the nilability analyzer

    A shallow embedding of [annotation/consume_trigger.go]: the three base
    behaviours, the closed family of consuming annotation triggers built on
    them, the [ConsumeTrigger] record, and the slice operations used by
    backpropagation ([MergeConsumeTriggerSlices],
    [ConsumeTriggerSliceAsGuarded], [ConsumeTriggerSlicesEq]).

    Conventions.  Go pointers to AST nodes and to type-checker objects are
    references to allocated nodes: a node carries its address, and two
    references are [==] exactly when the nodes are the same.  Go slices are
    lists.  An interface value holding one of the trigger structs is a value
    of one inductive type with one constructor per struct; Go's [==] on such
    interface values (same dynamic type, equal fields) is Leibniz equality. *)

From stdpp Require Import base decidable countable gmap list.

(** ** Collaborators from other packages *)

Module token.
(** [go/token.Pos] is an integer offset. *)
Definition Pos : Type := Z.
End token.

Module ast.
(** An expression node: its address and its source extent. *)
Record Expr : Type := mkExpr {
  expr_addr : positive;
  expr_Pos : token.Pos;
  expr_End : token.Pos }.

(** A return statement node; [Return] is the position of the keyword,
    which is what the [Pos] method of a return statement returns. *)
Record ReturnStmt : Type := mkReturnStmt {
  ret_addr : positive;
  Return : token.Pos }.

Definition ReturnStmt_Pos (s : ReturnStmt) : token.Pos := Return s.

#[global] Instance Expr_eq_dec : EqDecision Expr.
Proof. solve_decision. Defined.
#[global] Instance ReturnStmt_eq_dec : EqDecision ReturnStmt.
Proof. solve_decision. Defined.
End ast.

Module types.
(** [*types.Func] and [*types.Var]: declaration identities. *)
Definition Func : Type := positive.
Definition Var : Type := positive.
End types.

Module util.
(** Modelled from the spec: package [util] is not part of this file.  A
    guard nonce is an opaque identity token. *)
Definition GuardNonce : Type := Z.

(** Modelled from the spec: a set of guard nonces; its identity is its
    logical content, not the object holding it. *)
Abbreviation GuardNonceSet := (gset Z).

(** Modelled from the spec: the empty guard set. *)
Definition NoGuards : GuardNonceSet := ∅.

(** Modelled from the spec: [Copy] yields a set with the same content. *)
Definition Copy (g : GuardNonceSet) : GuardNonceSet := g.

(** Modelled from the spec: [Add] is the union with the given nonces. *)
Definition Add (g : GuardNonceSet) (guards : list GuardNonce) : GuardNonceSet :=
  g ∪ list_to_set guards.

(** Modelled from the spec: [Intersection] keeps the nonces in both sets. *)
Definition Intersection (g other : GuardNonceSet) : GuardNonceSet := g ∩ other.

(** Modelled from the spec: emptiness test. *)
Definition IsEmpty (g : GuardNonceSet) : bool := bool_decide (g = ∅).

(** Modelled from the spec: equality of content. *)
Definition Eq (g other : GuardNonceSet) : bool := bool_decide (g = other).
End util.

(** Modelled from the spec: the annotation keys, values and maps are
  declared in other files of the package.  A [Key] is the identity of an
  annotatable site (equality is declaration identity); a [Val] carries the
  shallow and the deep nilability bit; a [Map] is a frozen lookup from
  keys to values in which a key may be absent. *)
Inductive Key : Type := SiteKey (decl : positive).

Definition Key_decl (k : Key) : positive := let 'SiteKey d := k in d.

#[global] Instance Key_eq_dec : EqDecision Key.
Proof. solve_decision. Defined.
#[global] Instance Key_countable : Countable Key.
Proof. apply (inj_countable' Key_decl SiteKey). by intros []. Defined.

(** Modelled from the spec: the annotation record, with its two
    independent bits. *)
Record Val : Type := mkVal {
  IsNilable : bool;
  IsDeepNilable : bool }.

(** Modelled from the spec: the annotation snapshot. *)
Abbreviation Map := (gmap Key Val).

(** Modelled from the spec: [Key.Lookup] returns the annotation and whether
  it was found; not found is a distinct outcome (Go returns the zero
  [Val] next to [false]). *)
Definition Lookup (k : Key) (annMap : Map) : Val * bool :=
  match annMap !! k with
  | Some ann => (ann, true)
  | None => (mkVal false false, false)
  end.

(** Modelled from the spec: the closed enumeration of trigger kinds. *)
Inductive TriggerKind : Type := Always | Conditional | DeepConditional.

(** Modelled from the spec: the interface/implementation pair carried by the
  two affiliation triggers. *)
Record AffiliationPair : Type := mkAffiliationPair {
  ImplementingMethod : types.Func;
  InterfaceMethod : types.Func }.

#[global] Instance AffiliationPair_eq_dec : EqDecision AffiliationPair.
Proof. solve_decision. Defined.

(** ** The three base behaviours *)

Module TriggerIfNonNil.
Record t : Type := mk { Ann : Key }.

Definition Kind (_ : t) : TriggerKind := Conditional.
Definition UnderlyingSite (b : t) : option Key := Some (Ann b).
Definition CheckConsume (b : t) (annMap : Map) : bool :=
  let '(ann, ok) := Lookup (Ann b) annMap in
  ok && negb (IsNilable ann).
Definition customPos (_ : t) : token.Pos * bool := (0%Z, false).

#[global] Instance eq_dec : EqDecision t.
Proof. solve_decision. Defined.
End TriggerIfNonNil.

Module TriggerIfDeepNonNil.
Record t : Type := mk { Ann : Key }.

Definition Kind (_ : t) : TriggerKind := DeepConditional.
Definition UnderlyingSite (b : t) : option Key := Some (Ann b).
Definition CheckConsume (b : t) (annMap : Map) : bool :=
  let '(ann, ok) := Lookup (Ann b) annMap in
  ok && negb (IsDeepNilable ann).
Definition customPos (_ : t) : token.Pos * bool := (0%Z, false).

#[global] Instance eq_dec : EqDecision t.
Proof. solve_decision. Defined.
End TriggerIfDeepNonNil.

Module ConsumeTriggerTautology.
Record t : Type := mk { }.

Definition Kind (_ : t) : TriggerKind := Always.
(** The nil [Key]. *)
Definition UnderlyingSite (_ : t) : option Key := None.
Definition CheckConsume (_ : t) (_ : Map) : bool := true.
Definition customPos (_ : t) : token.Pos * bool := (0%Z, false).

#[global] Instance eq_dec : EqDecision t.
Proof. solve_decision. Defined.
End ConsumeTriggerTautology.

(** ** The trigger family

    Every trigger struct embeds exactly one base behaviour; the methods it
    does not define itself are the promoted methods of the embedded struct.
    The constructors are listed in the order of the source file, with the
    fields in the order of the struct declarations. *)

Inductive ConsumingAnnotationTrigger : Type :=
  | PtrLoad (b : ConsumeTriggerTautology.t)
  | MapAccess (b : ConsumeTriggerTautology.t)
  | MapWrittenTo (b : ConsumeTriggerTautology.t)
  | SliceAccess (b : ConsumeTriggerTautology.t)
  | FldAccess (b : ConsumeTriggerTautology.t)
  | UseAsErrorResult (b : TriggerIfNonNil.t)
      (RetStmt : ast.ReturnStmt) (IsNamedReturn : bool)
  | FldAssign (b : TriggerIfNonNil.t)
  | ArgFldPass (b : TriggerIfNonNil.t)
  | GlobalVarAssign (b : TriggerIfNonNil.t)
  | ArgPass (b : TriggerIfNonNil.t)
  | RecvPass (b : TriggerIfNonNil.t)
  | InterfaceResultFromImplementation (b : TriggerIfNonNil.t)
      (p : AffiliationPair)
  | MethodParamFromInterface (b : TriggerIfNonNil.t) (p : AffiliationPair)
  | UseAsReturn (b : TriggerIfNonNil.t)
      (IsNamedReturn : bool) (RetStmt : ast.ReturnStmt)
  | UseAsFldOfReturn (b : TriggerIfNonNil.t)
  | SliceAssign (b : TriggerIfDeepNonNil.t)
  | ArrayAssign (b : TriggerIfDeepNonNil.t)
  | PtrAssign (b : TriggerIfDeepNonNil.t)
  | MapAssign (b : TriggerIfDeepNonNil.t)
  | DeepAssignPrimitive (b : ConsumeTriggerTautology.t)
  | ParamAssignDeep (b : TriggerIfDeepNonNil.t)
  | FuncRetAssignDeep (b : TriggerIfDeepNonNil.t)
  | VariadicParamAssignDeep (b : TriggerIfNonNil.t)
  | FieldAssignDeep (b : TriggerIfDeepNonNil.t)
  | GlobalVarAssignDeep (b : TriggerIfDeepNonNil.t)
  | ChanAccess (b : ConsumeTriggerTautology.t)
  | LocalVarAssignDeep (b : ConsumeTriggerTautology.t) (LocalVar : types.Var)
  | ChanSend (b : TriggerIfDeepNonNil.t)
  | FldEscape (b : TriggerIfNonNil.t)
  | UseAsNonErrorRetDependentOnErrorRetNilability (b : TriggerIfNonNil.t)
      (IsNamedReturn : bool) (RetStmt : ast.ReturnStmt)
  | UseAsErrorRetWithNilabilityUnknown (b : TriggerIfNonNil.t)
      (IsNamedReturn : bool) (RetStmt : ast.ReturnStmt).

#[global] Instance ConsumingAnnotationTrigger_eq_dec :
  EqDecision ConsumingAnnotationTrigger.
Proof. solve_decision. Defined.

(** The struct a trigger embeds. *)
Inductive Embedded : Type :=
  | EmbedsIfNonNil (b : TriggerIfNonNil.t)
  | EmbedsIfDeepNonNil (b : TriggerIfDeepNonNil.t)
  | EmbedsTautology (b : ConsumeTriggerTautology.t).

Definition embedded (t : ConsumingAnnotationTrigger) : Embedded :=
  match t with
  | PtrLoad b | MapAccess b | MapWrittenTo b | SliceAccess b | FldAccess b
  | DeepAssignPrimitive b | ChanAccess b | LocalVarAssignDeep b _ =>
      EmbedsTautology b
  | UseAsErrorResult b _ _ | FldAssign b | ArgFldPass b | GlobalVarAssign b
  | ArgPass b | RecvPass b | InterfaceResultFromImplementation b _
  | MethodParamFromInterface b _ | UseAsReturn b _ _ | UseAsFldOfReturn b
  | VariadicParamAssignDeep b | FldEscape b
  | UseAsNonErrorRetDependentOnErrorRetNilability b _ _
  | UseAsErrorRetWithNilabilityUnknown b _ _ =>
      EmbedsIfNonNil b
  | SliceAssign b | ArrayAssign b | PtrAssign b | MapAssign b
  | ParamAssignDeep b | FuncRetAssignDeep b | FieldAssignDeep b
  | GlobalVarAssignDeep b | ChanSend b =>
      EmbedsIfDeepNonNil b
  end.

(** No trigger struct defines [CheckConsume], [Kind] or [UnderlyingSite]
    itself: all three are promoted from the embedded struct. *)
Definition CheckConsume (t : ConsumingAnnotationTrigger) (annMap : Map) : bool :=
  match embedded t with
  | EmbedsIfNonNil b => TriggerIfNonNil.CheckConsume b annMap
  | EmbedsIfDeepNonNil b => TriggerIfDeepNonNil.CheckConsume b annMap
  | EmbedsTautology b => ConsumeTriggerTautology.CheckConsume b annMap
  end.

Definition Kind (t : ConsumingAnnotationTrigger) : TriggerKind :=
  match embedded t with
  | EmbedsIfNonNil b => TriggerIfNonNil.Kind b
  | EmbedsIfDeepNonNil b => TriggerIfDeepNonNil.Kind b
  | EmbedsTautology b => ConsumeTriggerTautology.Kind b
  end.

Definition UnderlyingSite (t : ConsumingAnnotationTrigger) : option Key :=
  match embedded t with
  | EmbedsIfNonNil b => TriggerIfNonNil.UnderlyingSite b
  | EmbedsIfDeepNonNil b => TriggerIfDeepNonNil.UnderlyingSite b
  | EmbedsTautology b => ConsumeTriggerTautology.UnderlyingSite b
  end.

(** The body shared by the structs that define [customPos] themselves. *)
Definition namedReturnPos (IsNamedReturn : bool) (RetStmt : ast.ReturnStmt)
  : token.Pos * bool :=
  if IsNamedReturn then (ast.ReturnStmt_Pos RetStmt, true) else (0%Z, false).

(** [customPos] is defined by the structs that carry a return statement
    and promoted from the embedded struct everywhere else. *)
Definition customPos (t : ConsumingAnnotationTrigger) : token.Pos * bool :=
  match t with
  | UseAsErrorResult _ RetStmt IsNamedReturn
  | UseAsReturn _ IsNamedReturn RetStmt
  | UseAsNonErrorRetDependentOnErrorRetNilability _ IsNamedReturn RetStmt
  | UseAsErrorRetWithNilabilityUnknown _ IsNamedReturn RetStmt =>
      namedReturnPos IsNamedReturn RetStmt
  | _ =>
      match embedded t with
      | EmbedsIfNonNil b => TriggerIfNonNil.customPos b
      | EmbedsIfDeepNonNil b => TriggerIfDeepNonNil.customPos b
      | EmbedsTautology b => ConsumeTriggerTautology.customPos b
      end
  end.

(** ** Consume triggers *)

Module ConsumeTrigger.
Record t : Type := mk {
  Annotation : ConsumingAnnotationTrigger;
  Expr : ast.Expr;
  Guards : util.GuardNonceSet;
  GuardMatched : bool }.

#[global] Instance eq_dec : EqDecision t.
Proof. solve_decision. Defined.

Definition Eq (c c2 : t) : bool :=
  bool_decide (Annotation c = Annotation c2)
  && bool_decide (Expr c = Expr c2)
  && util.Eq (Guards c) (Guards c2)
  && bool_decide (GuardMatched c = GuardMatched c2).

Definition Pos (c : t) : token.Pos :=
  let '(pos, ok) := customPos (Annotation c) in
  if ok then pos else ast.expr_Pos (Expr c).
End ConsumeTrigger.

Import ConsumeTrigger (Annotation, Expr, Guards, GuardMatched).

(** The test of the inner loop of [MergeConsumeTriggerSlices]: the two
    triggers have [==] annotations and [==] expressions. *)
Definition matches (trigger outTrigger : ConsumeTrigger.t) : Prop :=
  Annotation outTrigger = Annotation trigger ∧ Expr outTrigger = Expr trigger.

#[global] Instance matches_dec trigger outTrigger :
  Decision (matches trigger outTrigger).
Proof. unfold matches. apply _. Defined.

(** The record stored at [out[i]] when [trigger] meets [outTrigger]. *)
Definition intersected (outTrigger trigger : ConsumeTrigger.t) : ConsumeTrigger.t :=
  {| Annotation := Annotation outTrigger;
     Expr := Expr outTrigger;
     Guards := util.Intersection (Guards outTrigger) (Guards trigger);
     GuardMatched := GuardMatched outTrigger && GuardMatched trigger |}.

(** The closure [addToOut], with the slice [out] it captures passed in and
    returned: the first matching index is overwritten, and a trigger that
    matches nothing is appended. *)
Definition addToOut (out : list ConsumeTrigger.t) (trigger : ConsumeTrigger.t)
  : list ConsumeTrigger.t :=
  match list_find (matches trigger) out with
  | Some (i, outTrigger) => <[i := intersected outTrigger trigger]> out
  | None => out ++ [trigger]
  end.

Definition MergeConsumeTriggerSlices (left right : list ConsumeTrigger.t)
  : list ConsumeTrigger.t :=
  let out := [] in
  let out := foldl addToOut out left in
  let out := foldl addToOut out right in
  out.

(** The record appended for [trigger]; [GuardMatched] is not among the
    fields of the composite literal, so it has its zero value. *)
Definition guarded (guards : list util.GuardNonce) (trigger : ConsumeTrigger.t)
  : ConsumeTrigger.t :=
  {| Annotation := Annotation trigger;
     Expr := Expr trigger;
     Guards := util.Add (util.Copy (Guards trigger)) guards;
     GuardMatched := false |}.

Definition ConsumeTriggerSliceAsGuarded (slice : list ConsumeTrigger.t)
  (guards : list util.GuardNonce) : list ConsumeTrigger.t :=
  foldl (λ out trigger, out ++ [guarded guards trigger]) [] slice.

(** The inner loop of [ConsumeTriggerSlicesEq]: [true] stands for
    [continue lsearch], [false] for falling out of the loop. *)
Fixpoint rsearch (l : ConsumeTrigger.t) (right : list ConsumeTrigger.t) : bool :=
  match right with
  | [] => false
  | r :: rest => if ConsumeTrigger.Eq l r then true else rsearch l rest
  end.

(** The loop labelled [lsearch]. *)
Fixpoint lsearch (left right : list ConsumeTrigger.t) : bool :=
  match left with
  | [] => true
  | l :: rest => if rsearch l right then lsearch rest right else false
  end.

Definition ConsumeTriggerSlicesEq (left right : list ConsumeTrigger.t) : bool :=
  if decide (length left ≠ length right) then false
  else lsearch left right.

(** The [IsNamedReturn] and [RetStmt] fields of a trigger whose struct
    declares them. *)
Definition namedReturnFields (t : ConsumingAnnotationTrigger)
  : option (bool * ast.ReturnStmt) :=
  match t with
  | UseAsErrorResult _ RetStmt IsNamedReturn
  | UseAsReturn _ IsNamedReturn RetStmt
  | UseAsNonErrorRetDependentOnErrorRetNilability _ IsNamedReturn RetStmt
  | UseAsErrorRetWithNilabilityUnknown _ IsNamedReturn RetStmt =>
      Some (IsNamedReturn, RetStmt)
  | _ => None
  end.

(** The position rule in the words of the specification: the override
    belongs to three triggers only, the error-result return
    ([UseAsErrorResult]), the general return ([UseAsReturn]) and the
    ambiguous error return ([UseAsErrorRetWithNilabilityUnknown]); every
    other trigger reports the position of the expression. *)
Definition spec_position (c : ConsumeTrigger.t) : token.Pos :=
  match Annotation c with
  | UseAsErrorResult _ RetStmt true
  | UseAsReturn _ true RetStmt
  | UseAsErrorRetWithNilabilityUnknown _ true RetStmt =>
      ast.ReturnStmt_Pos RetStmt
  | _ => ast.expr_Pos (Expr c)
  end.

(** The matching key of a consume trigger: the annotation and the
    expression, the two fields [MergeConsumeTriggerSlices] compares. *)
Definition obligation (c : ConsumeTrigger.t)
  : ConsumingAnnotationTrigger * ast.Expr :=
  (Annotation c, Expr c).

(** A slice without duplicate obligations: no two of its entries have the
    same matching key. *)
Definition NoDupObligations (slice : list ConsumeTrigger.t) : Prop :=
  NoDup (obligation <$> slice).

(** The records of a slice that carry the obligation [k], in slice
    order. *)
Definition occurrences (k : ConsumingAnnotationTrigger * ast.Expr)
  (slice : list ConsumeTrigger.t) : list ConsumeTrigger.t :=
  filter (λ c, obligation c = k) slice.

(** ** Constructors of consume triggers *)

Definition GetRetFldConsumer (retKey : Key) (expr : ast.Expr) : ConsumeTrigger.t :=
  {| Annotation := UseAsFldOfReturn (TriggerIfNonNil.mk retKey);
     Expr := expr;
     Guards := util.NoGuards;
     GuardMatched := false |}.

Definition GetEscapeFldConsumer (escKey : Key) (selExpr : ast.Expr)
  : ConsumeTrigger.t :=
  {| Annotation := FldEscape (TriggerIfNonNil.mk escKey);
     Expr := selExpr;
     Guards := util.NoGuards;
     GuardMatched := false |}.

Definition GetParamFldConsumer (paramKey : Key) (expr : ast.Expr)
  : ConsumeTrigger.t :=
  {| Annotation := ArgFldPass (TriggerIfNonNil.mk paramKey);
     Expr := expr;
     Guards := util.NoGuards;
     GuardMatched := false |}.

(** ** Proof devices for the merge *)

(** What [addToOut] does to the list of obligations of [out]. *)
Definition addKey (acc : list (ConsumingAnnotationTrigger * ast.Expr))
  (k : ConsumingAnnotationTrigger * ast.Expr)
  : list (ConsumingAnnotationTrigger * ast.Expr) :=
  if decide (k ∈ acc) then acc else acc ++ [k].

(** The records of one obligation after they have met, in order, in the
    first of them. *)
Definition collapse (cs : list ConsumeTrigger.t) : list ConsumeTrigger.t :=
  match cs with
  | [] => []
  | c :: cs => [foldl intersected c cs]
  end.

(** * Properties *)

(** ** Base behaviours *)

Lemma andb_negb_found (annMap : Map) k (bit : Val → bool) :
  (let '(ann, ok) := Lookup k annMap in ok && negb (bit ann)) = true
  ↔ ∃ ann, annMap !! k = Some ann ∧ bit ann = false.
Proof.
  unfold Lookup. destruct (annMap !! k) as [ann|]; simpl.
  - rewrite negb_true_iff. split; [eauto|]. by intros (? & [= <-] & ?).
  - split; [done|]. by intros (? & ? & _).
Qed.

(** C4: [TriggerIfNonNil.CheckConsume] is true exactly when the key is
    found in the map and the found annotation is not nilable; when the key
    is absent it is false. *)
Theorem TriggerIfNonNil_CheckConsume_iff (k : Key) (annMap : Map) :
  (TriggerIfNonNil.CheckConsume (TriggerIfNonNil.mk k) annMap = true
     ↔ ∃ ann, annMap !! k = Some ann ∧ IsNilable ann = false)
  ∧ (annMap !! k = None →
     TriggerIfNonNil.CheckConsume (TriggerIfNonNil.mk k) annMap = false).
Proof.
  split; [apply andb_negb_found|].
  intros Hk. apply not_true_is_false.
  intros (? & Hs & _)%(andb_negb_found _ _ IsNilable).
  simpl in Hs. congruence.
Qed.

Lemma TriggerIfNonNil_CheckConsume_iff_witness :
  (∅ : Map) !! SiteKey 1 = None
  ∧ TriggerIfNonNil.CheckConsume (TriggerIfNonNil.mk (SiteKey 1)) ∅ = false.
Proof.
  split; [reflexivity|].
  apply (proj2 (TriggerIfNonNil_CheckConsume_iff (SiteKey 1) ∅)). reflexivity.
Defined.

(** C5: [TriggerIfDeepNonNil.CheckConsume] is true exactly when the key is
    found in the map and the found annotation is not deeply nilable, and
    false when the key is absent; the kind is [DeepConditional] and the
    underlying site is the key. *)
Theorem TriggerIfDeepNonNil_CheckConsume_iff (k : Key) (annMap : Map) :
  (TriggerIfDeepNonNil.CheckConsume (TriggerIfDeepNonNil.mk k) annMap = true
     ↔ ∃ ann, annMap !! k = Some ann ∧ IsDeepNilable ann = false)
  ∧ (annMap !! k = None →
     TriggerIfDeepNonNil.CheckConsume (TriggerIfDeepNonNil.mk k) annMap = false)
  ∧ TriggerIfDeepNonNil.Kind (TriggerIfDeepNonNil.mk k) = DeepConditional
  ∧ TriggerIfDeepNonNil.UnderlyingSite (TriggerIfDeepNonNil.mk k) = Some k.
Proof.
  split_and!; [apply andb_negb_found| |done..].
  intros Hk. apply not_true_is_false.
  intros (? & Hs & _)%(andb_negb_found _ _ IsDeepNilable).
  simpl in Hs. congruence.
Qed.

Lemma TriggerIfDeepNonNil_CheckConsume_iff_witness :
  (∅ : Map) !! SiteKey 1 = None
  ∧ TriggerIfDeepNonNil.CheckConsume (TriggerIfDeepNonNil.mk (SiteKey 1)) ∅
    = false.
Proof.
  split; [reflexivity|].
  apply (TriggerIfDeepNonNil_CheckConsume_iff (SiteKey 1) ∅). reflexivity.
Defined.

(** C6: the tautology behaviour, and every trigger that embeds it, is
    consumed under every annotation map, the empty one included; its kind
    is [Always] and it has no underlying site. *)
Theorem Tautology_CheckConsume (b : ConsumeTriggerTautology.t) (annMap : Map) :
  (ConsumeTriggerTautology.CheckConsume b annMap = true
   ∧ ConsumeTriggerTautology.CheckConsume b ∅ = true
   ∧ ConsumeTriggerTautology.Kind b = Always
   ∧ ConsumeTriggerTautology.UnderlyingSite b = None)
  ∧ (∀ LocalVar,
       Forall (λ t, CheckConsume t annMap = true ∧ CheckConsume t ∅ = true
                    ∧ Kind t = Always ∧ UnderlyingSite t = None)
         [PtrLoad b; MapAccess b; MapWrittenTo b; SliceAccess b; FldAccess b;
          DeepAssignPrimitive b; ChanAccess b; LocalVarAssignDeep b LocalVar])
  ∧ (∀ t, embedded t = EmbedsTautology b →
       CheckConsume t annMap = true ∧ Kind t = Always
       ∧ UnderlyingSite t = None).
Proof.
  split_and!; [done..| |].
  - intros LocalVar. by repeat constructor.
  - intros t Ht. unfold CheckConsume, Kind, UnderlyingSite. by rewrite Ht.
Qed.

Lemma Tautology_CheckConsume_witness :
  embedded (PtrLoad ConsumeTriggerTautology.mk)
    = EmbedsTautology ConsumeTriggerTautology.mk
  ∧ CheckConsume (PtrLoad ConsumeTriggerTautology.mk)
      {[SiteKey 1 := mkVal true true]} = true.
Proof.
  split; [reflexivity|].
  apply (Tautology_CheckConsume ConsumeTriggerTautology.mk
           {[SiteKey 1 := mkVal true true]}).
  reflexivity.
Defined.

(** C9: [LocalVarAssignDeep] embeds the tautology, so it is consumed under
    every annotation map; [VariadicParamAssignDeep] embeds
    [TriggerIfNonNil], so it is consumed exactly when its key is found and
    not (shallowly) nilable. *)
Theorem LocalVarAssignDeep_VariadicParamAssignDeep_CheckConsume
    (LocalVar : types.Var) (k : Key) (annMap : Map) :
  CheckConsume (LocalVarAssignDeep ConsumeTriggerTautology.mk LocalVar) annMap
    = true
  ∧ Kind (LocalVarAssignDeep ConsumeTriggerTautology.mk LocalVar) = Always
  ∧ (CheckConsume (VariadicParamAssignDeep (TriggerIfNonNil.mk k)) annMap = true
       ↔ ∃ ann, annMap !! k = Some ann ∧ IsNilable ann = false)
  ∧ Kind (VariadicParamAssignDeep (TriggerIfNonNil.mk k)) = Conditional.
Proof. split_and!; [done..| |done]. apply andb_negb_found. Qed.

(** ** Position *)

(** C7, as the code has it: the position is that of the return statement
    exactly for the four triggers that carry one
    ([UseAsErrorResult], [UseAsReturn],
    [UseAsNonErrorRetDependentOnErrorRetNilability],
    [UseAsErrorRetWithNilabilityUnknown]) when their [IsNamedReturn] field
    is true; for these four with the field false, and for every other
    trigger, it is the position of the expression. *)
Theorem Pos_namedReturn (c : ConsumeTrigger.t) :
  match namedReturnFields (Annotation c) with
  | Some (IsNamedReturn, RetStmt) =>
      ConsumeTrigger.Pos c =
        if IsNamedReturn then ast.ReturnStmt_Pos RetStmt
        else ast.expr_Pos (Expr c)
  | None => ConsumeTrigger.Pos c = ast.expr_Pos (Expr c)
  end.
Proof.
  destruct c as [[] e g m]; simpl; try reflexivity;
    by destruct IsNamedReturn.
Qed.

(** C7, as stated, fails: for a
    [UseAsNonErrorRetDependentOnErrorRetNilability] trigger with a named
    return, which is none of the three triggers the statement lists, the
    position is that of the return statement (40), not that of the
    expression (7). *)
Lemma Pos_three_triggers_counterexample :
  let c := ConsumeTrigger.mk
             (UseAsNonErrorRetDependentOnErrorRetNilability
                (TriggerIfNonNil.mk (SiteKey 1)) true (ast.mkReturnStmt 2 40%Z))
             (ast.mkExpr 3 7%Z 9%Z) ∅ false in
  spec_position c = 7%Z ∧ ConsumeTrigger.Pos c = 40%Z
  ∧ ConsumeTrigger.Pos c ≠ spec_position c.
Proof. by split_and!. Qed.

(** ** Guarding *)

Lemma foldl_snoc_fmap {A B} (f : A → B) (acc : list B) (l : list A) :
  foldl (λ out x, out ++ [f x]) acc l = acc ++ (f <$> l).
Proof.
  revert acc. induction l as [|x l IH]; intros acc; simpl.
  - by rewrite app_nil_r.
  - by rewrite IH, <- app_assoc.
Qed.

Lemma ConsumeTriggerSliceAsGuarded_fmap slice guards :
  ConsumeTriggerSliceAsGuarded slice guards = guarded guards <$> slice.
Proof. unfold ConsumeTriggerSliceAsGuarded. by rewrite foldl_snoc_fmap. Qed.

(** C3: [ConsumeTriggerSliceAsGuarded] returns, position by position, a
    record with the annotation and the expression of the input record,
    whose guard set is the union of the input record's guards and the new
    guards (hence a superset of the input's), and whose [GuardMatched] is
    false whatever the input's was. *)
Theorem ConsumeTriggerSliceAsGuarded_spec
    (slice : list ConsumeTrigger.t) (guards : list util.GuardNonce) :
  length (ConsumeTriggerSliceAsGuarded slice guards) = length slice
  ∧ ∀ i r, slice !! i = Some r →
      ∃ r', ConsumeTriggerSliceAsGuarded slice guards !! i = Some r'
        ∧ Guards r' = Guards r ∪ list_to_set guards
        ∧ Guards r ⊆ Guards r'
        ∧ Annotation r' = Annotation r
        ∧ Expr r' = Expr r
        ∧ GuardMatched r' = false.
Proof.
  rewrite ConsumeTriggerSliceAsGuarded_fmap. split.
  - apply length_fmap.
  - intros i r Hi. exists (guarded guards r).
    rewrite list_lookup_fmap, Hi. split_and!; try done.
    simpl. unfold util.Add, util.Copy. set_solver.
Qed.

Lemma ConsumeTriggerSliceAsGuarded_spec_witness :
  let r := ConsumeTrigger.mk (PtrLoad ConsumeTriggerTautology.mk)
             (ast.mkExpr 1 10%Z 11%Z) {[2%Z]} true in
  [r] !! 0 = Some r
  ∧ ∃ r', ConsumeTriggerSliceAsGuarded [r] [7%Z] !! 0 = Some r'
      ∧ Guards r' = Guards r ∪ list_to_set [7%Z]
      ∧ Guards r ⊆ Guards r'
      ∧ Annotation r' = Annotation r
      ∧ Expr r' = Expr r
      ∧ GuardMatched r' = false.
Proof.
  intros r. split; [reflexivity|].
  apply (proj2 (ConsumeTriggerSliceAsGuarded_spec [r] [7%Z]) 0 r).
  reflexivity.
Defined.

(** ** Equality of slices *)

Lemma Eq_true_iff (c c2 : ConsumeTrigger.t) :
  ConsumeTrigger.Eq c c2 = true
  ↔ Annotation c = Annotation c2 ∧ Expr c = Expr c2
    ∧ Guards c = Guards c2 ∧ GuardMatched c = GuardMatched c2.
Proof.
  unfold ConsumeTrigger.Eq, util.Eq.
  rewrite !andb_true_iff, !bool_decide_eq_true. tauto.
Qed.

Lemma Eq_true_eq (c c2 : ConsumeTrigger.t) :
  ConsumeTrigger.Eq c c2 = true ↔ c = c2.
Proof.
  rewrite Eq_true_iff. split.
  - destruct c, c2; simpl. by intros (-> & -> & -> & ->).
  - by intros ->.
Qed.

Lemma rsearch_true (l : ConsumeTrigger.t) (right : list ConsumeTrigger.t) :
  rsearch l right = true ↔ l ∈ right.
Proof.
  induction right as [|r rest IH]; simpl.
  - split; [done|]. by intros ?%elem_of_nil.
  - rewrite elem_of_cons, <- IH, <- Eq_true_eq.
    destruct (ConsumeTrigger.Eq l r); naive_solver.
Qed.

Lemma lsearch_true (left right : list ConsumeTrigger.t) :
  lsearch left right = true ↔ left ⊆ right.
Proof.
  induction left as [|l rest IH]; simpl.
  - split; [|done]. intros _ x. by intros ?%elem_of_nil.
  - destruct (rsearch l right) eqn:Hl.
    + rewrite IH. apply rsearch_true in Hl. set_solver.
    + split; [done|]. intros Hsub.
      assert (rsearch l right = true) by (apply rsearch_true; set_solver).
      congruence.
Qed.

Lemma ConsumeTriggerSlicesEq_true (left right : list ConsumeTrigger.t) :
  ConsumeTriggerSlicesEq left right = true
  ↔ length left = length right ∧ left ⊆ right.
Proof.
  unfold ConsumeTriggerSlicesEq. case_decide as Hlen.
  - split; [done|]. by intros [? _].
  - rewrite lsearch_true. split; [|tauto]. intros ?. split; [lia|done].
Qed.

Lemma ConsumeTriggerSlicesEq_true_NoDup (left right : list ConsumeTrigger.t) :
  NoDup left →
  ConsumeTriggerSlicesEq left right = true ↔ left ≡ₚ right.
Proof.
  intros Hnd. rewrite ConsumeTriggerSlicesEq_true. split.
  - intros [Hlen Hsub]. apply submseteq_length_Permutation; [|lia].
    by apply NoDup_submseteq.
  - intros Hp. split; [by rewrite Hp|]. intros x. by rewrite Hp.
Qed.

Lemma ConsumeTriggerSlicesEq_Permutation
    (left left' right right' : list ConsumeTrigger.t) :
  left' ≡ₚ left → right' ≡ₚ right →
  ConsumeTriggerSlicesEq left' right' = ConsumeTriggerSlicesEq left right.
Proof.
  intros Hl Hr. apply eq_true_iff_eq. rewrite !ConsumeTriggerSlicesEq_true.
  pose proof (Permutation_length Hl). pose proof (Permutation_length Hr).
  split; intros [Hlen Hsub]; (split; [congruence|]); intros x Hx.
  - rewrite <- Hr. apply Hsub. by rewrite Hl.
  - rewrite Hr. apply Hsub. by rewrite <- Hl.
Qed.

Lemma NoDupObligations_NoDup (slice : list ConsumeTrigger.t) :
  NoDupObligations slice → NoDup slice.
Proof. apply NoDup_fmap_1. Qed.

(** C8: on slices without duplicate obligations,
    [ConsumeTriggerSlicesEq] is reflexive, symmetric and unchanged when
    either slice is reordered; it is true exactly when the two slices hold
    the same records under [Eq], where [Eq] compares the annotation, the
    expression, the content of the guard set and [GuardMatched]; and it is
    false when the lengths differ. *)
Theorem ConsumeTriggerSlicesEq_spec (left right : list ConsumeTrigger.t) :
  NoDupObligations left → NoDupObligations right →
  ConsumeTriggerSlicesEq left left = true
  ∧ ConsumeTriggerSlicesEq left right = ConsumeTriggerSlicesEq right left
  ∧ (∀ left' right', left' ≡ₚ left → right' ≡ₚ right →
       ConsumeTriggerSlicesEq left' right' = ConsumeTriggerSlicesEq left right)
  ∧ (ConsumeTriggerSlicesEq left right = true
       ↔ ∀ c, (∃ l, l ∈ left ∧ ConsumeTrigger.Eq l c = true)
              ↔ (∃ r, r ∈ right ∧ ConsumeTrigger.Eq r c = true))
  ∧ (∀ c c2, ConsumeTrigger.Eq c c2 = true
       ↔ Annotation c = Annotation c2 ∧ Expr c = Expr c2
         ∧ Guards c = Guards c2 ∧ GuardMatched c = GuardMatched c2)
  ∧ (length left ≠ length right →
       ConsumeTriggerSlicesEq left right = false).
Proof.
  intros Hl%NoDupObligations_NoDup Hr%NoDupObligations_NoDup. split_and!.
  - by apply ConsumeTriggerSlicesEq_true.
  - apply eq_true_iff_eq.
    rewrite !ConsumeTriggerSlicesEq_true_NoDup by done.
    split; by intros ->.
  - intros left' right' Hl' Hr'. by apply ConsumeTriggerSlicesEq_Permutation.
  - rewrite ConsumeTriggerSlicesEq_true_NoDup by done. split.
    + intros Hp c. setoid_rewrite Hp. done.
    + intros Hsame. apply NoDup_Permutation; [done..|].
      intros c. split; intros Hc.
      * destruct (proj1 (Hsame c)) as (r & ? & ->%Eq_true_eq); [|done].
        exists c. split; [done|]. by apply Eq_true_eq.
      * destruct (proj2 (Hsame c)) as (l & ? & ->%Eq_true_eq); [|done].
        exists c. split; [done|]. by apply Eq_true_eq.
  - apply Eq_true_iff.
  - intros Hlen. unfold ConsumeTriggerSlicesEq. by case_decide.
Qed.

Lemma ConsumeTriggerSlicesEq_spec_witness :
  let c1 := ConsumeTrigger.mk (PtrLoad ConsumeTriggerTautology.mk)
              (ast.mkExpr 1 10%Z 11%Z) {[2%Z]} true in
  let c2 := ConsumeTrigger.mk (ArgPass (TriggerIfNonNil.mk (SiteKey 5)))
              (ast.mkExpr 2 20%Z 21%Z) ∅ false in
  NoDupObligations [c1; c2] ∧ NoDupObligations [c2; c1]
  ∧ ConsumeTriggerSlicesEq [c1; c2] [c2; c1]
    = ConsumeTriggerSlicesEq [c2; c1] [c1; c2].
Proof.
  intros c1 c2.
  assert (Hl : NoDupObligations [c1; c2])
    by (apply (bool_decide_unpack _); vm_compute; exact I).
  assert (Hr : NoDupObligations [c2; c1])
    by (apply (bool_decide_unpack _); vm_compute; exact I).
  split_and!; [exact Hl|exact Hr|].
  exact (proj1 (proj2 (ConsumeTriggerSlicesEq_spec [c1; c2] [c2; c1] Hl Hr))).
Defined.

(** ** Merging *)

Lemma matches_obligation (trigger outTrigger : ConsumeTrigger.t) :
  matches trigger outTrigger ↔ obligation outTrigger = obligation trigger.
Proof. unfold matches, obligation. split; [by intros [-> ->]|by intros [= -> ->]]. Qed.

Lemma obligation_intersected (outTrigger trigger : ConsumeTrigger.t) :
  obligation (intersected outTrigger trigger) = obligation outTrigger.
Proof. done. Qed.

(** The loop of [addToOut], one iteration at a time. *)
Lemma addToOut_nil trigger : addToOut [] trigger = [trigger].
Proof. done. Qed.

Lemma addToOut_cons outTrigger out trigger :
  addToOut (outTrigger :: out) trigger =
    if decide (matches trigger outTrigger)
    then intersected outTrigger trigger :: out
    else outTrigger :: addToOut out trigger.
Proof.
  unfold addToOut. simpl. case_decide; [done|].
  by destruct (list_find (matches trigger) out) as [[i o]|].
Qed.

Lemma obligation_addToOut out trigger :
  obligation <$> addToOut out trigger =
    if decide (obligation trigger ∈ obligation <$> out)
    then obligation <$> out
    else (obligation <$> out) ++ [obligation trigger].
Proof.
  induction out as [|o out IH].
  - rewrite addToOut_nil.
    destruct (decide (obligation trigger ∈ obligation <$> [])) as [H|H];
      [|done].
    by apply elem_of_nil in H.
  - rewrite addToOut_cons.
    destruct (decide (matches trigger o)) as [Hm|Hm];
      rewrite matches_obligation in Hm; rewrite !fmap_cons.
    + rewrite decide_True by (rewrite elem_of_cons; auto). done.
    + rewrite IH.
      destruct (decide (obligation trigger ∈ obligation <$> out)) as [Hin|Hin].
      * rewrite decide_True by (rewrite elem_of_cons; auto). done.
      * rewrite decide_False; [done|].
        rewrite elem_of_cons. intros [?|?]; [by apply Hm|done].
Qed.

Lemma elem_of_obligation_foldl k out slice :
  k ∈ obligation <$> foldl addToOut out slice
  ↔ k ∈ obligation <$> out ∨ k ∈ obligation <$> slice.
Proof.
  revert out. induction slice as [|x slice IH]; intros out; simpl.
  - rewrite elem_of_nil. tauto.
  - rewrite IH, obligation_addToOut, elem_of_cons.
    case_decide as Hin; [|rewrite elem_of_app, list_elem_of_singleton; tauto].
    split; [tauto|]. intros [? | [-> | ?]]; auto.
Qed.

Lemma NoDup_obligation_foldl out slice :
  NoDup (obligation <$> out) →
  NoDup (obligation <$> foldl addToOut out slice).
Proof.
  revert out. induction slice as [|x slice IH]; intros out Hnd; simpl; [done|].
  apply IH. rewrite obligation_addToOut. case_decide as Hin; [done|].
  apply NoDup_app. split_and!; [done| |apply NoDup_singleton].
  intros k Hk ->%list_elem_of_singleton. done.
Qed.

Lemma filter_iff_elem_of {A} (P1 P2 : A → Prop)
    `{!∀ x, Decision (P1 x), !∀ x, Decision (P2 x)} (l : list A) :
  (∀ x, x ∈ l → P1 x ↔ P2 x) → filter P1 l = filter P2 l.
Proof.
  induction l as [|x l IH]; intros HP; [done|].
  rewrite !filter_cons, IH by (intros y Hy; apply HP; by right).
  destruct (decide (P1 x)) as [H1|H1], (decide (P2 x)) as [H2|H2];
    try done; exfalso.
  - apply H2, HP; [by left|done].
  - apply H1, HP; [by left|done].
Qed.

Lemma obligation_foldl_NoDup out slice :
  NoDup (obligation <$> slice) →
  obligation <$> foldl addToOut out slice =
    (obligation <$> out)
    ++ filter (λ k, k ∉ obligation <$> out) (obligation <$> slice).
Proof.
  revert out. induction slice as [|x slice IH]; intros out Hnd; simpl.
  - by rewrite app_nil_r.
  - apply NoDup_cons in Hnd as [Hx Hnd].
    rewrite IH, obligation_addToOut, filter_cons by done.
    destruct (decide (obligation x ∈ obligation <$> out)) as [Hin|Hin].
    + by rewrite decide_False by tauto.
    + rewrite decide_True by done. rewrite <- app_assoc. simpl.
      do 2 f_equal. apply filter_iff_elem_of. intros k Hk.
      rewrite elem_of_app, list_elem_of_singleton.
      split; [tauto|]. intros Hk' [? | ->]; done.
Qed.

Lemma occurrences_cons k c slice :
  occurrences k (c :: slice) =
    if decide (obligation c = k) then c :: occurrences k slice
    else occurrences k slice.
Proof. unfold occurrences. by rewrite filter_cons. Qed.

Lemma occurrences_app k slice1 slice2 :
  occurrences k (slice1 ++ slice2)
  = occurrences k slice1 ++ occurrences k slice2.
Proof. apply filter_app. Qed.

Lemma elem_of_occurrences k c slice :
  c ∈ occurrences k slice ↔ obligation c = k ∧ c ∈ slice.
Proof. unfold occurrences. by rewrite list_elem_of_filter. Qed.

(** What one call of [addToOut] does to the records of one obligation. *)
Lemma occurrences_addToOut k out trigger :
  occurrences k (addToOut out trigger) =
    if decide (obligation trigger = k)
    then match occurrences k out with
         | [] => [trigger]
         | outTrigger :: rest => intersected outTrigger trigger :: rest
         end
    else occurrences k out.
Proof.
  induction out as [|o out IH].
  - rewrite addToOut_nil, occurrences_cons. by case_decide.
  - rewrite addToOut_cons.
    destruct (decide (matches trigger o)) as [Hm|Hm];
      rewrite matches_obligation in Hm; rewrite !occurrences_cons.
    + rewrite obligation_intersected, Hm.
      by destruct (decide (obligation trigger = k)).
    + rewrite IH. destruct (decide (obligation trigger = k)) as [<-|Hk].
      * rewrite !decide_False by done. done.
      * done.
Qed.

(** What a run of [addToOut] over [slice] does to the records of one
    obligation: they all meet in the first of them. *)
Lemma occurrences_foldl_addToOut k out slice :
  occurrences k (foldl addToOut out slice) =
    match occurrences k out with
    | [] => match occurrences k slice with
            | [] => []
            | c :: cs => [foldl intersected c cs]
            end
    | c :: rest => foldl intersected c (occurrences k slice) :: rest
    end.
Proof.
  revert out. induction slice as [|x slice IH]; intros out; simpl.
  - by destruct (occurrences k out).
  - rewrite IH, occurrences_addToOut, occurrences_cons.
    destruct (decide (obligation x = k)); [|done].
    by destruct (occurrences k out).
Qed.

Lemma occurrences_MergeConsumeTriggerSlices k left right :
  occurrences k (MergeConsumeTriggerSlices left right) =
    match occurrences k (left ++ right) with
    | [] => []
    | c :: cs => [foldl intersected c cs]
    end.
Proof.
  unfold MergeConsumeTriggerSlices.
  rewrite occurrences_foldl_addToOut, occurrences_foldl_addToOut.
  rewrite occurrences_app. change (occurrences k []) with (@nil ConsumeTrigger.t).
  destruct (occurrences k left) as [|c cs]; simpl; [done|].
  by rewrite foldl_app.
Qed.

Lemma obligation_foldl_intersected c cs :
  obligation (foldl intersected c cs) = obligation c.
Proof. revert c. induction cs as [|x cs IH]; intros c; simpl; [done|]. by rewrite IH. Qed.

Lemma Guards_foldl_intersected c cs g :
  g ∈ Guards (foldl intersected c cs) ↔ ∀ x, x ∈ c :: cs → g ∈ Guards x.
Proof.
  revert c. induction cs as [|x cs IH]; intros c; simpl.
  - split; [by intros H y ->%list_elem_of_singleton|].
    intros H. apply H, list_elem_of_singleton. done.
  - rewrite IH. split.
    + intros H.
      assert (g ∈ Guards c ∩ Guards x) as [Hc Hx]%elem_of_intersection
        by (apply (H (intersected c x)), elem_of_cons; auto).
      intros y [-> | [-> | Hy]%elem_of_cons]%elem_of_cons; [done..|].
      apply H, elem_of_cons. auto.
    + intros H y [-> | Hy]%elem_of_cons.
      * apply elem_of_intersection.
        split; apply H; rewrite !elem_of_cons; auto.
      * apply H. rewrite !elem_of_cons. auto.
Qed.

Lemma GuardMatched_foldl_intersected c cs :
  GuardMatched (foldl intersected c cs) = true
  ↔ ∀ x, x ∈ c :: cs → GuardMatched x = true.
Proof.
  revert c. induction cs as [|x cs IH]; intros c; simpl.
  - split; [by intros H y ->%list_elem_of_singleton|].
    intros H. apply H, list_elem_of_singleton. done.
  - rewrite IH. split.
    + intros H.
      assert (GuardMatched c && GuardMatched x = true)
        as [Hc Hx]%andb_true_iff
        by (apply (H (intersected c x)), elem_of_cons; auto).
      intros y [-> | [-> | Hy]%elem_of_cons]%elem_of_cons; [done..|].
      apply H, elem_of_cons. auto.
    + intros H y [-> | Hy]%elem_of_cons.
      * apply andb_true_iff.
        split; apply H; rewrite !elem_of_cons; auto.
      * apply H. rewrite !elem_of_cons. auto.
Qed.

Lemma filter_all {A} (P : A → Prop) `{!∀ x, Decision (P x)} (l : list A) :
  (∀ x, x ∈ l → P x) → filter P l = l.
Proof.
  induction l as [|x l IH]; intros HP; [done|].
  rewrite filter_cons, decide_True by (apply HP, elem_of_cons; auto).
  f_equal. apply IH. intros y Hy. apply HP, elem_of_cons. auto.
Qed.

Lemma occurrences_absent k slice :
  k ∉ obligation <$> slice → occurrences k slice = [].
Proof.
  induction slice as [|c slice IH]; [done|].
  rewrite fmap_cons, not_elem_of_cons, occurrences_cons. intros [Hc Hk].
  rewrite decide_False by done. by apply IH.
Qed.

Lemma occurrences_NoDupObligations c slice :
  NoDupObligations slice → c ∈ slice →
  occurrences (obligation c) slice = [c].
Proof.
  unfold NoDupObligations.
  induction slice as [|x slice IH]; [by intros _ ?%elem_of_nil|].
  rewrite fmap_cons, NoDup_cons, elem_of_cons, occurrences_cons.
  intros [Hx Hnd] [-> | Hc].
  - rewrite decide_True by done. by rewrite occurrences_absent.
  - rewrite decide_False; [by apply IH|].
    intros Heq. apply Hx. rewrite Heq. apply list_elem_of_fmap. eauto.
Qed.

(** C1: an obligation held by one record of each input is held by one
    record of the merge, whose guard set is the intersection of the two
    incoming guard sets and whose [GuardMatched] is the conjunction of the
    two incoming flags; an obligation held by a record of one input only
    is held by that record, unchanged.  Two records hold the same
    obligation when their annotations and their expressions are equal,
    whatever their guards. *)
Theorem MergeConsumeTriggerSlices_matched
    (left right : list ConsumeTrigger.t)
    (k : ConsumingAnnotationTrigger * ast.Expr) :
  (∀ l r, occurrences k left = [l] → occurrences k right = [r] →
     occurrences k (MergeConsumeTriggerSlices left right) =
       [ {| Annotation := Annotation l;
            Expr := Expr l;
            Guards := Guards l ∩ Guards r;
            GuardMatched := GuardMatched l && GuardMatched r |} ])
  ∧ (∀ l, occurrences k left = [l] → occurrences k right = [] →
       occurrences k (MergeConsumeTriggerSlices left right) = [l])
  ∧ (∀ r, occurrences k left = [] → occurrences k right = [r] →
       occurrences k (MergeConsumeTriggerSlices left right) = [r])
  ∧ (∀ c c', obligation c = obligation c'
       ↔ Annotation c = Annotation c' ∧ Expr c = Expr c')
  ∧ (NoDupObligations left → NoDupObligations right →
     ∀ l r, l ∈ left → r ∈ right → obligation l = obligation r →
       {| Annotation := Annotation l;
          Expr := Expr l;
          Guards := Guards l ∩ Guards r;
          GuardMatched := GuardMatched l && GuardMatched r |}
       ∈ MergeConsumeTriggerSlices left right).
Proof.
  split_and!.
  - intros l r Hl Hr.
    by rewrite occurrences_MergeConsumeTriggerSlices, occurrences_app, Hl, Hr.
  - intros l Hl Hr.
    by rewrite occurrences_MergeConsumeTriggerSlices, occurrences_app, Hl, Hr.
  - intros r Hl Hr.
    by rewrite occurrences_MergeConsumeTriggerSlices, occurrences_app, Hl, Hr.
  - intros c c'. unfold obligation. split; [by intros [= -> ->]|by intros [-> ->]].
  - intros Hndl Hndr l r Hl Hr Hlr.
    apply (elem_of_occurrences (obligation l)).
    rewrite occurrences_MergeConsumeTriggerSlices, occurrences_app.
    rewrite (occurrences_NoDupObligations l left) by done.
    rewrite Hlr, (occurrences_NoDupObligations r right) by done.
    apply list_elem_of_singleton. done.
Qed.

Lemma MergeConsumeTriggerSlices_matched_witness :
  let a := PtrLoad ConsumeTriggerTautology.mk in
  let b := ArgPass (TriggerIfNonNil.mk (SiteKey 5)) in
  let x := ast.mkExpr 1 10%Z 11%Z in
  let l := ConsumeTrigger.mk a x {[1; 2]}%Z true in
  let r := ConsumeTrigger.mk a x {[2; 3]}%Z false in
  let r' := ConsumeTrigger.mk b x ∅ false in
  occurrences (a, x) [l] = [l] ∧ occurrences (a, x) [r; r'] = [r]
  ∧ occurrences (a, x) (MergeConsumeTriggerSlices [l] [r; r'])
    = [ConsumeTrigger.mk a x ({[1; 2]} ∩ {[2; 3]})%Z (true && false)].
Proof.
  intros a b x l r r'.
  assert (Hl : occurrences (a, x) [l] = [l]) by (vm_compute; reflexivity).
  assert (Hr : occurrences (a, x) [r; r'] = [r]) by (vm_compute; reflexivity).
  split_and!; [exact Hl|exact Hr|].
  exact (proj1 (MergeConsumeTriggerSlices_matched [l] [r; r'] (a, x)) l r Hl Hr).
Defined.

(** C2: on inputs without duplicate obligations the merge is the union
    on the matching key: its obligations are those of the left input, in
    order, followed by those of the right input that the left input does
    not hold, in order; no obligation occurs twice; and its length is the
    number of distinct obligations of the two inputs. *)
Theorem MergeConsumeTriggerSlices_union (left right : list ConsumeTrigger.t) :
  NoDupObligations left → NoDupObligations right →
  obligation <$> MergeConsumeTriggerSlices left right =
    (obligation <$> left)
    ++ filter (λ k, k ∉ obligation <$> left) (obligation <$> right)
  ∧ NoDupObligations (MergeConsumeTriggerSlices left right)
  ∧ (∀ k, k ∈ obligation <$> MergeConsumeTriggerSlices left right
          ↔ k ∈ obligation <$> left ∨ k ∈ obligation <$> right)
  ∧ (∀ union : list (ConsumingAnnotationTrigger * ast.Expr),
       NoDup union →
       (∀ k, k ∈ union ↔ k ∈ obligation <$> left ∨ k ∈ obligation <$> right) →
       length (MergeConsumeTriggerSlices left right) = length union).
Proof.
  intros Hl Hr.
  assert (Hnd : NoDupObligations (MergeConsumeTriggerSlices left right)).
  { unfold MergeConsumeTriggerSlices.
    do 2 apply NoDup_obligation_foldl. apply NoDup_nil_2. }
  assert (Hin : ∀ k, k ∈ obligation <$> MergeConsumeTriggerSlices left right
                     ↔ k ∈ obligation <$> left ∨ k ∈ obligation <$> right).
  { intros k. unfold MergeConsumeTriggerSlices.
    rewrite !elem_of_obligation_foldl, fmap_nil, elem_of_nil. tauto. }
  split_and!; [|done..|].
  - unfold MergeConsumeTriggerSlices.
    rewrite (obligation_foldl_NoDup _ right) by done. f_equal.
    + rewrite (obligation_foldl_NoDup [] left) by done.
      rewrite fmap_nil, app_nil_l. apply filter_all.
      intros k _. apply not_elem_of_nil.
    + apply filter_iff_elem_of. intros k _.
      rewrite elem_of_obligation_foldl, fmap_nil, elem_of_nil. tauto.
  - intros union Hu Hk.
    rewrite <- (length_fmap obligation). apply Permutation_length.
    apply NoDup_Permutation; [done..|].
    intros k. by rewrite Hin, Hk.
Qed.

Lemma MergeConsumeTriggerSlices_union_witness :
  let a := PtrLoad ConsumeTriggerTautology.mk in
  let b := ArgPass (TriggerIfNonNil.mk (SiteKey 5)) in
  let x := ast.mkExpr 1 10%Z 11%Z in
  let left := [ConsumeTrigger.mk a x {[1; 2]}%Z true] in
  let right := [ConsumeTrigger.mk b x ∅ false;
                ConsumeTrigger.mk a x {[2; 3]}%Z true] in
  NoDupObligations left ∧ NoDupObligations right
  ∧ obligation <$> MergeConsumeTriggerSlices left right =
      (obligation <$> left)
      ++ filter (λ k, k ∉ obligation <$> left) (obligation <$> right).
Proof.
  intros a b x left right.
  assert (Hl : NoDupObligations left)
    by (apply (bool_decide_unpack _); vm_compute; exact I).
  assert (Hr : NoDupObligations right)
    by (apply (bool_decide_unpack _); vm_compute; exact I).
  split_and!; [exact Hl|exact Hr|].
  exact (proj1 (MergeConsumeTriggerSlices_union left right Hl Hr)).
Defined.

(** C10: the merge never holds an obligation twice, whatever the inputs
    hold.  The records that carry one obligation, in the left input and
    then in the right one, are collapsed into a single record whose guard
    set is the intersection of all their guard sets and whose
    [GuardMatched] is the conjunction of all their flags; in particular a
    slice that holds an obligation twice is deduplicated by a merge with
    the empty slice, on either side. *)
Theorem MergeConsumeTriggerSlices_collapses
    (left right : list ConsumeTrigger.t) :
  NoDupObligations (MergeConsumeTriggerSlices left right)
  ∧ NoDupObligations (MergeConsumeTriggerSlices left [])
  ∧ (∀ k d ds, occurrences k (left ++ right) = d :: ds →
       ∃ m, occurrences k (MergeConsumeTriggerSlices left right) = [m]
         ∧ obligation m = k
         ∧ (∀ g, g ∈ Guards m ↔ ∀ x, x ∈ d :: ds → g ∈ Guards x)
         ∧ (GuardMatched m = true
              ↔ ∀ x, x ∈ d :: ds → GuardMatched x = true))
  ∧ (∀ k d1 d2, occurrences k left = [d1; d2] →
       occurrences k (MergeConsumeTriggerSlices left []) =
         [ {| Annotation := Annotation d1;
              Expr := Expr d1;
              Guards := Guards d1 ∩ Guards d2;
              GuardMatched := GuardMatched d1 && GuardMatched d2 |} ]
       ∧ occurrences k (MergeConsumeTriggerSlices [] left) =
           [ {| Annotation := Annotation d1;
                Expr := Expr d1;
                Guards := Guards d1 ∩ Guards d2;
                GuardMatched := GuardMatched d1 && GuardMatched d2 |} ]).
Proof.
  assert (Hnd : ∀ l r, NoDupObligations (MergeConsumeTriggerSlices l r)).
  { intros l r. unfold MergeConsumeTriggerSlices.
    do 2 apply NoDup_obligation_foldl. apply NoDup_nil_2. }
  split_and!; [done..| |].
  - intros k d ds Hocc. exists (foldl intersected d ds).
    rewrite occurrences_MergeConsumeTriggerSlices, Hocc.
    split_and!; [done| |apply Guards_foldl_intersected
                        |apply GuardMatched_foldl_intersected].
    rewrite obligation_foldl_intersected.
    assert (d ∈ occurrences k (left ++ right)) as [? ?]%elem_of_occurrences;
      [|done].
    rewrite Hocc. apply elem_of_cons. auto.
  - intros k d1 d2 Hocc.
    rewrite !occurrences_MergeConsumeTriggerSlices, app_nil_r, app_nil_l, Hocc.
    done.
Qed.

Lemma MergeConsumeTriggerSlices_collapses_witness :
  let a := PtrLoad ConsumeTriggerTautology.mk in
  let x := ast.mkExpr 1 10%Z 11%Z in
  let d1 := ConsumeTrigger.mk a x {[1; 2]}%Z true in
  let d2 := ConsumeTrigger.mk a x {[2; 3]}%Z false in
  occurrences (a, x) [d1; d2] = [d1; d2]
  ∧ occurrences (a, x) (MergeConsumeTriggerSlices [d1; d2] [])
    = [ConsumeTrigger.mk a x ({[1; 2]} ∩ {[2; 3]})%Z (true && false)].
Proof.
  intros a x d1 d2.
  assert (Hocc : occurrences (a, x) [d1; d2] = [d1; d2])
    by (vm_compute; reflexivity).
  split; [exact Hocc|].
  exact (proj1 (proj2 (proj2 (proj2
           (MergeConsumeTriggerSlices_collapses [d1; d2] []))) (a, x) d1 d2 Hocc)).
Defined.

(** ** Scenarios *)

Example merge_scenario :
  let a := PtrLoad ConsumeTriggerTautology.mk in
  let b := FldAccess ConsumeTriggerTautology.mk in
  let x := ast.mkExpr 1 10%Z 11%Z in
  MergeConsumeTriggerSlices
    [ConsumeTrigger.mk a x {[1; 2]}%Z true]
    [ConsumeTrigger.mk a x {[2; 3]}%Z true; ConsumeTrigger.mk b x ∅ false]
  = [ConsumeTrigger.mk a x {[2]}%Z true; ConsumeTrigger.mk b x ∅ false].
Proof. vm_compute. reflexivity. Qed.

Example merge_deduplicates :
  let a := PtrLoad ConsumeTriggerTautology.mk in
  let x := ast.mkExpr 1 10%Z 11%Z in
  MergeConsumeTriggerSlices
    [ConsumeTrigger.mk a x {[1; 2]}%Z true; ConsumeTrigger.mk a x {[2; 3]}%Z false]
    []
  = [ConsumeTrigger.mk a x {[2]}%Z false].
Proof. vm_compute. reflexivity. Qed.

Example guarded_scenario :
  ConsumeTriggerSliceAsGuarded
    [ConsumeTrigger.mk (PtrLoad ConsumeTriggerTautology.mk)
       (ast.mkExpr 1 10%Z 11%Z) {[2%Z]} true] [7%Z]
  = [ConsumeTrigger.mk (PtrLoad ConsumeTriggerTautology.mk)
       (ast.mkExpr 1 10%Z 11%Z) {[2; 7]}%Z false].
Proof. vm_compute. reflexivity. Qed.

Example ArgPass_scenario :
  CheckConsume (ArgPass (TriggerIfNonNil.mk (SiteKey 5))) ∅ = false
  ∧ CheckConsume (ArgPass (TriggerIfNonNil.mk (SiteKey 5)))
      {[SiteKey 5 := mkVal false true]} = true.
Proof. split; reflexivity. Qed.

(** * Further properties *)

(** ** Triggers *)


Lemma CheckConsume_site (t : ConsumingAnnotationTrigger) (annMap : Map) :
  CheckConsume t annMap =
    match UnderlyingSite t with
    | None => true
    | Some k =>
        match annMap !! k with
        | None => false
        | Some ann =>
            match Kind t with
            | Always => true
            | Conditional => negb (IsNilable ann)
            | DeepConditional => negb (IsDeepNilable ann)
            end
        end
    end.
Proof.
  destruct t; try reflexivity;
    unfold CheckConsume, UnderlyingSite, Kind; simpl;
    unfold TriggerIfNonNil.CheckConsume, TriggerIfDeepNonNil.CheckConsume,
      TriggerIfNonNil.UnderlyingSite, TriggerIfDeepNonNil.UnderlyingSite,
      Lookup;
    by destruct (annMap !! _).
Qed.


(** [CheckConsume] reads the annotation map at the underlying site only:
    two maps that agree there give the same answer. *)
Theorem CheckConsume_UnderlyingSite_local
    (t : ConsumingAnnotationTrigger) (annMap annMap' : Map) :
  (∀ k, UnderlyingSite t = Some k → annMap !! k = annMap' !! k) →
  CheckConsume t annMap = CheckConsume t annMap'.
Proof.
  intros Hagree. rewrite !CheckConsume_site.
  destruct (UnderlyingSite t) as [k|]; [|done].
  by rewrite (Hagree k eq_refl).
Qed.

Lemma CheckConsume_UnderlyingSite_local_witness :
  let t := ArgPass (TriggerIfNonNil.mk (SiteKey 5)) in
  let annMap : Map := {[SiteKey 5 := mkVal false true]} in
  let annMap' : Map :=
    {[SiteKey 5 := mkVal false true; SiteKey 6 := mkVal true true]} in
  (∀ k, UnderlyingSite t = Some k → annMap !! k = annMap' !! k)
  ∧ CheckConsume t annMap = CheckConsume t annMap'.
Proof.
  intros t annMap annMap'.
  assert (H : ∀ k, UnderlyingSite t = Some k → annMap !! k = annMap' !! k)
    by (intros k [= <-]; vm_compute; reflexivity).
  split; [exact H|].
  exact (CheckConsume_UnderlyingSite_local t annMap annMap' H).
Defined.

(** ** Position *)

Lemma Pos_obligation (c c' : ConsumeTrigger.t) :
  obligation c = obligation c' → ConsumeTrigger.Pos c = ConsumeTrigger.Pos c'.
Proof. unfold obligation, ConsumeTrigger.Pos. by intros [= -> ->]. Qed.

(** The three constructors build a record without guards and without a
    matched guard, whose position is that of the expression it is given,
    and which is consumed exactly when the key it is given is found and
    not nilable; the three records are different obligations. *)
Theorem GetFldConsumers_spec (key : Key) (expr : ast.Expr) (annMap : Map) :
  Forall (λ c, util.IsEmpty (Guards c) = true
               ∧ GuardMatched c = false
               ∧ Expr c = expr
               ∧ ConsumeTrigger.Pos c = ast.expr_Pos expr
               ∧ UnderlyingSite (Annotation c) = Some key
               ∧ (CheckConsume (Annotation c) annMap = true
                    ↔ ∃ ann, annMap !! key = Some ann ∧ IsNilable ann = false))
    [GetRetFldConsumer key expr; GetEscapeFldConsumer key expr;
     GetParamFldConsumer key expr]
  ∧ NoDupObligations
      [GetRetFldConsumer key expr; GetEscapeFldConsumer key expr;
       GetParamFldConsumer key expr].
Proof.
  split.
  - repeat constructor; apply andb_negb_found.
  - unfold NoDupObligations. simpl.
    repeat (constructor; [rewrite ?elem_of_cons, ?elem_of_nil; naive_solver|]).
    constructor.
Qed.

(** ** Guarding, continued *)

Lemma obligation_guarded guards c : obligation (guarded guards c) = obligation c.
Proof. done. Qed.

Lemma guarded_fixed guards c :
  guarded guards c = c
  ↔ GuardMatched c = false ∧ list_to_set guards ⊆ Guards c.
Proof.
  destruct c as [a e g m]. unfold guarded, util.Add, util.Copy. simpl. split.
  - intros [= Hg Hm]. split; [done|]. set_solver.
  - intros [-> Hg]. f_equal. set_solver.
Qed.

Lemma intersected_guarded guards o t :
  intersected (guarded guards o) (guarded guards t)
  = guarded guards (intersected o t).
Proof.
  unfold intersected, guarded, util.Add, util.Copy, util.Intersection. simpl.
  f_equal. set_solver.
Qed.

Lemma addToOut_guarded guards out t :
  addToOut (guarded guards <$> out) (guarded guards t)
  = guarded guards <$> addToOut out t.
Proof.
  induction out as [|o out IH]; [done|].
  rewrite fmap_cons, !addToOut_cons.
  destruct (decide (matches t o)) as [Hm|Hm].
  - rewrite decide_True by done. by rewrite fmap_cons, intersected_guarded.
  - rewrite decide_False by done. by rewrite fmap_cons, IH.
Qed.

Lemma foldl_addToOut_guarded guards out slice :
  foldl addToOut (guarded guards <$> out) (guarded guards <$> slice)
  = guarded guards <$> foldl addToOut out slice.
Proof.
  revert out. induction slice as [|x slice IH]; intros out; simpl; [done|].
  by rewrite addToOut_guarded, IH.
Qed.

(** Guarding changes neither the obligations of a slice, nor their order,
    nor their positions; so the result is free of duplicate obligations
    exactly when the input is, and the empty slice is mapped to the empty
    slice. *)
Theorem ConsumeTriggerSliceAsGuarded_obligations
    (slice : list ConsumeTrigger.t) (guards : list util.GuardNonce) :
  obligation <$> ConsumeTriggerSliceAsGuarded slice guards = obligation <$> slice
  ∧ ConsumeTrigger.Pos <$> ConsumeTriggerSliceAsGuarded slice guards
    = ConsumeTrigger.Pos <$> slice
  ∧ (NoDupObligations (ConsumeTriggerSliceAsGuarded slice guards)
       ↔ NoDupObligations slice)
  ∧ ConsumeTriggerSliceAsGuarded [] guards = [].
Proof.
  rewrite ConsumeTriggerSliceAsGuarded_fmap.
  assert (Hk : obligation <$> (guarded guards <$> slice) = obligation <$> slice).
  { rewrite <- list_fmap_compose. by apply list_fmap_ext. }
  split_and!; [done| | |done].
  - rewrite <- list_fmap_compose. by apply list_fmap_ext.
  - unfold NoDupObligations. by rewrite Hk.
Qed.

(** Guarding twice is guarding once with all the nonces, and guarding
    again with the same nonces changes nothing. *)
Theorem ConsumeTriggerSliceAsGuarded_compose
    (slice : list ConsumeTrigger.t) (guards guards' : list util.GuardNonce) :
  ConsumeTriggerSliceAsGuarded
    (ConsumeTriggerSliceAsGuarded slice guards) guards'
  = ConsumeTriggerSliceAsGuarded slice (guards ++ guards')
  ∧ ConsumeTriggerSliceAsGuarded
      (ConsumeTriggerSliceAsGuarded slice guards) guards
    = ConsumeTriggerSliceAsGuarded slice guards.
Proof.
  rewrite !ConsumeTriggerSliceAsGuarded_fmap, <- !list_fmap_compose.
  split; apply list_fmap_ext; intros _ c _; unfold guarded, util.Add, util.Copy;
    simpl; f_equal; set_solver.
Qed.

(** Guarding is not the identity, even with no nonce: it returns the slice
    it is given exactly when no record of the slice has a matched guard and
    every record already holds all the nonces. *)
Theorem ConsumeTriggerSliceAsGuarded_fixed
    (slice : list ConsumeTrigger.t) (guards : list util.GuardNonce) :
  (ConsumeTriggerSliceAsGuarded slice guards = slice
     ↔ ∀ c, c ∈ slice →
         GuardMatched c = false ∧ list_to_set guards ⊆ Guards c)
  ∧ (ConsumeTriggerSliceAsGuarded slice [] = slice
       ↔ ∀ c, c ∈ slice → GuardMatched c = false).
Proof.
  assert (H : ∀ g, ConsumeTriggerSliceAsGuarded slice g = slice
                   ↔ ∀ c, c ∈ slice →
                       GuardMatched c = false ∧ list_to_set g ⊆ Guards c).
  { intros g. rewrite ConsumeTriggerSliceAsGuarded_fmap.
    induction slice as [|x slice IH]; simpl.
    - split; [|done]. by intros _ c ?%elem_of_nil.
    - split.
      + intros [= Hx Hs] c [-> | Hc]%elem_of_cons.
        * by apply guarded_fixed.
        * by apply IH.
      + intros Hall. f_equal.
        * apply guarded_fixed, Hall, elem_of_cons. auto.
        * apply IH. intros c Hc. apply Hall, elem_of_cons. auto. }
  split; [apply H|]. rewrite H. split.
  - intros Hall c Hc. by apply Hall.
  - intros Hall c Hc. split; [by apply Hall|]. simpl. set_solver.
Qed.

(** Guarding commutes with merging: merging two guarded slices is
    guarding the merge of the two slices. *)
Theorem MergeConsumeTriggerSlices_guarded
    (left right : list ConsumeTrigger.t) (guards : list util.GuardNonce) :
  MergeConsumeTriggerSlices
    (ConsumeTriggerSliceAsGuarded left guards)
    (ConsumeTriggerSliceAsGuarded right guards)
  = ConsumeTriggerSliceAsGuarded (MergeConsumeTriggerSlices left right) guards.
Proof.
  rewrite !ConsumeTriggerSliceAsGuarded_fmap. unfold MergeConsumeTriggerSlices.
  rewrite <- !foldl_addToOut_guarded. done.
Qed.

(** ** Merging, continued *)

Lemma MergeConsumeTriggerSlices_NoDupObligations left right :
  NoDupObligations (MergeConsumeTriggerSlices left right).
Proof.
  unfold MergeConsumeTriggerSlices.
  do 2 apply NoDup_obligation_foldl. apply NoDup_nil_2.
Qed.

Lemma addToOut_fresh out trigger :
  obligation trigger ∉ obligation <$> out →
  addToOut out trigger = out ++ [trigger].
Proof.
  induction out as [|o out IH]; [done|].
  rewrite fmap_cons, not_elem_of_cons, addToOut_cons. intros [Ho Hout].
  rewrite decide_False by (rewrite matches_obligation; congruence).
  by rewrite IH.
Qed.

Lemma foldl_addToOut_fresh out slice :
  NoDup (obligation <$> (out ++ slice)) →
  foldl addToOut out slice = out ++ slice.
Proof.
  revert out. induction slice as [|x slice IH]; intros out Hnd; simpl.
  - by rewrite app_nil_r.
  - rewrite (cons_middle x), app_assoc in Hnd.
    rewrite addToOut_fresh, IH, <- app_assoc; [done..|].
    rewrite !fmap_app in Hnd. apply NoDup_app in Hnd as [Hnd _].
    apply NoDup_app in Hnd as (_ & Hdisj & _).
    intros Hx. apply (Hdisj _ Hx). simpl. apply list_elem_of_singleton. done.
Qed.

Lemma intersected_diag c : intersected c c = c.
Proof.
  destruct c as [a e g m]. unfold intersected, util.Intersection. simpl.
  f_equal; [set_solver|apply andb_diag].
Qed.

Lemma intersected_comm c c' :
  obligation c = obligation c' → intersected c c' = intersected c' c.
Proof.
  destruct c as [a e g m], c' as [a' e' g' m'].
  unfold obligation, intersected, util.Intersection. simpl.
  intros [= -> ->]. f_equal; [set_solver|apply andb_comm].
Qed.

Lemma intersected_assoc c y z :
  intersected c (intersected y z) = intersected (intersected c y) z.
Proof.
  unfold intersected, util.Intersection. simpl.
  f_equal; [set_solver|apply andb_assoc].
Qed.

Lemma intersected_foldl c y ys :
  intersected c (foldl intersected y ys) = foldl intersected (intersected c y) ys.
Proof.
  revert y. induction ys as [|z ys IH]; intros y; simpl; [done|].
  by rewrite IH, intersected_assoc.
Qed.

Lemma addToOut_elem out trigger :
  NoDupObligations out → trigger ∈ out → addToOut out trigger = out.
Proof.
  unfold NoDupObligations. induction out as [|o out IH]; [by intros _ ?%elem_of_nil|].
  rewrite fmap_cons, NoDup_cons, elem_of_cons, addToOut_cons.
  intros [Ho Hnd] Hin.
  destruct (decide (matches trigger o)) as [Hm|Hm];
    rewrite matches_obligation in Hm.
  - destruct Hin as [-> | Hin]; [by rewrite intersected_diag|].
    exfalso. apply Ho. rewrite Hm. apply list_elem_of_fmap. eauto.
  - destruct Hin as [-> | Hin]; [done|]. by rewrite IH.
Qed.

Lemma foldl_addToOut_elems out slice :
  NoDupObligations out → (∀ x, x ∈ slice → x ∈ out) →
  foldl addToOut out slice = out.
Proof.
  intros Hnd. induction slice as [|x slice IH]; intros Hsub; simpl; [done|].
  rewrite addToOut_elem by (try done; apply Hsub, elem_of_cons; auto).
  apply IH. intros y Hy. apply Hsub, elem_of_cons. auto.
Qed.

(** Two slices with the same obligations in the same order, neither
    repeated, and with the same records for every obligation are equal. *)
Lemma slice_ext (slice1 slice2 : list ConsumeTrigger.t) :
  NoDupObligations slice1 →
  obligation <$> slice1 = obligation <$> slice2 →
  (∀ k, occurrences k slice1 = occurrences k slice2) →
  slice1 = slice2.
Proof.
  unfold NoDupObligations. revert slice2.
  induction slice1 as [|x slice1 IH]; intros [|y slice2] Hnd Hk Hocc; try done.
  rewrite !fmap_cons in Hk. apply (inj2 cons) in Hk as [Hxy Hk].
  rewrite fmap_cons in Hnd. apply NoDup_cons in Hnd as [Hx Hnd].
  assert (x = y) as <-.
  { specialize (Hocc (obligation x)). rewrite !occurrences_cons in Hocc.
    rewrite !decide_True in Hocc by done. by injection Hocc. }
  f_equal. apply IH; [done..|]. intros k. specialize (Hocc k).
  rewrite !occurrences_cons in Hocc.
  destruct (decide (obligation x = k)); [by injection Hocc|done].
Qed.

Lemma obligation_foldl_addKey out slice :
  obligation <$> foldl addToOut out slice
  = foldl addKey (obligation <$> out) (obligation <$> slice).
Proof.
  revert out. induction slice as [|x slice IH]; intros out; simpl; [done|].
  by rewrite IH, obligation_addToOut.
Qed.

Lemma elem_of_foldl_addKey k acc ks :
  k ∈ foldl addKey acc ks ↔ k ∈ acc ∨ k ∈ ks.
Proof.
  revert acc. induction ks as [|x ks IH]; intros acc; simpl.
  - rewrite elem_of_nil. tauto.
  - rewrite IH, elem_of_cons. unfold addKey. case_decide as Hin.
    + split; [tauto|]. intros [? | [-> | ?]]; auto.
    + rewrite elem_of_app, list_elem_of_singleton. tauto.
Qed.

Lemma foldl_addKey_nub acc ks :
  foldl addKey acc (foldl addKey [] ks) = foldl addKey acc ks.
Proof.
  induction ks as [|k ks IH] using rev_ind; [done|].
  rewrite !foldl_snoc. unfold addKey at 2.
  destruct (decide (k ∈ foldl addKey [] ks)) as [Hin|Hin].
  - rewrite IH. unfold addKey. rewrite decide_True; [done|].
    apply elem_of_foldl_addKey. apply elem_of_foldl_addKey in Hin as [[]%elem_of_nil|?].
    auto.
  - by rewrite foldl_snoc, IH.
Qed.

Lemma obligation_MergeConsumeTriggerSlices left right :
  obligation <$> MergeConsumeTriggerSlices left right
  = foldl addKey [] ((obligation <$> left) ++ (obligation <$> right)).
Proof.
  unfold MergeConsumeTriggerSlices.
  by rewrite !obligation_foldl_addKey, foldl_app.
Qed.

Lemma occurrences_Merge_collapse k left right :
  occurrences k (MergeConsumeTriggerSlices left right)
  = collapse (occurrences k (left ++ right)).
Proof. apply occurrences_MergeConsumeTriggerSlices. Qed.

Lemma collapse_app_collapse_l cs ds :
  collapse (collapse cs ++ ds) = collapse (cs ++ ds).
Proof. destruct cs as [|c cs]; [done|]. simpl. by rewrite foldl_app. Qed.

Lemma collapse_app_collapse_r cs ds :
  collapse (cs ++ collapse ds) = collapse (cs ++ ds).
Proof.
  destruct cs as [|c cs]; simpl.
  - by destruct ds.
  - rewrite !foldl_app. destruct ds as [|d ds]; simpl; [done|].
    by rewrite intersected_foldl.
Qed.

Lemma elem_of_MergeConsumeTriggerSlices m left right :
  m ∈ MergeConsumeTriggerSlices left right
  ↔ m ∈ collapse (occurrences (obligation m) (left ++ right)).
Proof.
  rewrite <- occurrences_Merge_collapse, elem_of_occurrences. tauto.
Qed.

Lemma occurrences_cases k slice :
  NoDupObligations slice →
  occurrences k slice = [] ∨ ∃ c, obligation c = k ∧ occurrences k slice = [c].
Proof.
  intros Hnd. destruct (decide (k ∈ obligation <$> slice)) as [Hin|Hin].
  - right. apply list_elem_of_fmap in Hin as (c & -> & Hc). exists c.
    split; [done|]. by apply occurrences_NoDupObligations.
  - left. by apply occurrences_absent.
Qed.

Lemma occurrences_Permutation k slice slice' :
  NoDupObligations slice → slice ≡ₚ slice' →
  occurrences k slice = occurrences k slice'.
Proof.
  intros Hnd Hp.
  assert (Hocc : occurrences k slice ≡ₚ occurrences k slice')
    by (unfold occurrences; by rewrite Hp).
  destruct (occurrences_cases k slice Hnd) as [Hnil | (c & _ & Hc)].
  - rewrite Hnil in *. by apply Permutation_nil_l in Hocc.
  - rewrite Hc in *. by apply Permutation_singleton_l in Hocc.
Qed.

Lemma merge_neutral (slice : list ConsumeTrigger.t) :
  NoDupObligations slice →
  MergeConsumeTriggerSlices slice [] = slice
  ∧ MergeConsumeTriggerSlices [] slice = slice.
Proof.
  intros Hnd. unfold MergeConsumeTriggerSlices. simpl.
  by rewrite foldl_addToOut_fresh.
Qed.

Lemma merge_self (slice : list ConsumeTrigger.t) :
  NoDupObligations slice → MergeConsumeTriggerSlices slice slice = slice.
Proof.
  intros Hnd. unfold MergeConsumeTriggerSlices.
  rewrite (foldl_addToOut_fresh [] slice) by done. simpl.
  by apply foldl_addToOut_elems.
Qed.

(** The empty slice is neutral for the merge of a slice without
    duplicate obligations, on either side. *)
Theorem MergeConsumeTriggerSlices_nil (slice : list ConsumeTrigger.t) :
  NoDupObligations slice →
  MergeConsumeTriggerSlices slice [] = slice
  ∧ MergeConsumeTriggerSlices [] slice = slice.
Proof. apply merge_neutral. Qed.

Lemma MergeConsumeTriggerSlices_nil_witness :
  let c := GetRetFldConsumer (SiteKey 1) (ast.mkExpr 1 10%Z 11%Z) in
  NoDupObligations [c] ∧ MergeConsumeTriggerSlices [c] [] = [c].
Proof.
  intros c.
  assert (Hnd : NoDupObligations [c])
    by (apply (bool_decide_unpack _); vm_compute; exact I).
  split; [exact Hnd|]. exact (proj1 (MergeConsumeTriggerSlices_nil [c] Hnd)).
Defined.

(** Merging a slice without duplicate obligations with itself returns
    it. *)
Theorem MergeConsumeTriggerSlices_idempotent (slice : list ConsumeTrigger.t) :
  NoDupObligations slice → MergeConsumeTriggerSlices slice slice = slice.
Proof. apply merge_self. Qed.

Lemma MergeConsumeTriggerSlices_idempotent_witness :
  let c := ConsumeTrigger.mk (PtrLoad ConsumeTriggerTautology.mk)
             (ast.mkExpr 1 10%Z 11%Z) {[1; 2]}%Z true in
  NoDupObligations [c] ∧ MergeConsumeTriggerSlices [c] [c] = [c].
Proof.
  intros c.
  assert (Hnd : NoDupObligations [c])
    by (apply (bool_decide_unpack _); vm_compute; exact I).
  split; [exact Hnd|]. exact (MergeConsumeTriggerSlices_idempotent [c] Hnd).
Defined.

(** The merge of any two slices is stable: merging it with the empty
    slice, on either side, or with itself returns it. *)
Theorem MergeConsumeTriggerSlices_stable (left right : list ConsumeTrigger.t) :
  MergeConsumeTriggerSlices (MergeConsumeTriggerSlices left right) []
  = MergeConsumeTriggerSlices left right
  ∧ MergeConsumeTriggerSlices [] (MergeConsumeTriggerSlices left right)
    = MergeConsumeTriggerSlices left right
  ∧ MergeConsumeTriggerSlices (MergeConsumeTriggerSlices left right)
      (MergeConsumeTriggerSlices left right)
    = MergeConsumeTriggerSlices left right.
Proof.
  pose proof (MergeConsumeTriggerSlices_NoDupObligations left right) as Hnd.
  split_and!; [by apply merge_neutral..|by apply merge_self].
Qed.

(** The merge is associative, whatever the three slices hold. *)
Theorem MergeConsumeTriggerSlices_assoc (s1 s2 s3 : list ConsumeTrigger.t) :
  MergeConsumeTriggerSlices (MergeConsumeTriggerSlices s1 s2) s3
  = MergeConsumeTriggerSlices s1 (MergeConsumeTriggerSlices s2 s3).
Proof.
  apply slice_ext.
  - apply MergeConsumeTriggerSlices_NoDupObligations.
  - rewrite !obligation_MergeConsumeTriggerSlices.
    transitivity (foldl addKey []
      ((obligation <$> s1) ++ (obligation <$> s2) ++ (obligation <$> s3))).
    + rewrite (foldl_app _ (foldl addKey [] _)), foldl_addKey_nub.
      by rewrite <- foldl_app, <- app_assoc.
    + rewrite (foldl_app _ (obligation <$> s1) (foldl addKey [] _)).
      by rewrite foldl_addKey_nub, <- foldl_app.
  - intros k.
    rewrite !occurrences_Merge_collapse, !occurrences_app,
      !occurrences_Merge_collapse, !occurrences_app.
    by rewrite collapse_app_collapse_l, collapse_app_collapse_r, app_assoc.
Qed.

Lemma MergeConsumeTriggerSlices_Permutation left left' right right' :
  NoDupObligations left → NoDupObligations right →
  left ≡ₚ left' → right ≡ₚ right' →
  MergeConsumeTriggerSlices left right
  ≡ₚ MergeConsumeTriggerSlices left' right'.
Proof.
  intros Hl Hr Hpl Hpr.
  apply NoDup_Permutation;
    [apply NoDupObligations_NoDup, MergeConsumeTriggerSlices_NoDupObligations..|].
  intros m. rewrite !elem_of_MergeConsumeTriggerSlices, !occurrences_app.
  by rewrite (occurrences_Permutation _ left left'),
    (occurrences_Permutation _ right right').
Qed.

Lemma MergeConsumeTriggerSlices_comm_Permutation left right :
  NoDupObligations left → NoDupObligations right →
  MergeConsumeTriggerSlices left right ≡ₚ MergeConsumeTriggerSlices right left.
Proof.
  intros Hl Hr.
  apply NoDup_Permutation;
    [apply NoDupObligations_NoDup, MergeConsumeTriggerSlices_NoDupObligations..|].
  intros m. rewrite !elem_of_MergeConsumeTriggerSlices, !occurrences_app.
  destruct (occurrences_cases (obligation m) left Hl) as [-> | (l & Hkl & ->)],
    (occurrences_cases (obligation m) right Hr) as [-> | (r & Hkr & ->)];
    try done.
  simpl. rewrite (intersected_comm l r) by congruence. done.
Qed.

(** On slices without duplicate obligations the merge is commutative up
    to the order of the records: the two merges are permutations of each
    other, and [ConsumeTriggerSlicesEq] holds of them. *)
Theorem MergeConsumeTriggerSlices_comm (left right : list ConsumeTrigger.t) :
  NoDupObligations left → NoDupObligations right →
  MergeConsumeTriggerSlices left right ≡ₚ MergeConsumeTriggerSlices right left
  ∧ ConsumeTriggerSlicesEq (MergeConsumeTriggerSlices left right)
      (MergeConsumeTriggerSlices right left) = true.
Proof.
  intros Hl Hr.
  pose proof (MergeConsumeTriggerSlices_comm_Permutation left right Hl Hr) as Hp.
  split; [done|]. apply ConsumeTriggerSlicesEq_true_NoDup; [|done].
  apply NoDupObligations_NoDup, MergeConsumeTriggerSlices_NoDupObligations.
Qed.

Lemma MergeConsumeTriggerSlices_comm_witness :
  let a := PtrLoad ConsumeTriggerTautology.mk in
  let b := ArgPass (TriggerIfNonNil.mk (SiteKey 5)) in
  let x := ast.mkExpr 1 10%Z 11%Z in
  let left := [ConsumeTrigger.mk a x {[1; 2]}%Z true] in
  let right := [ConsumeTrigger.mk b x ∅ false;
                ConsumeTrigger.mk a x {[2; 3]}%Z true] in
  NoDupObligations left ∧ NoDupObligations right
  ∧ ConsumeTriggerSlicesEq (MergeConsumeTriggerSlices left right)
      (MergeConsumeTriggerSlices right left) = true.
Proof.
  intros a b x left right.
  assert (Hl : NoDupObligations left)
    by (apply (bool_decide_unpack _); vm_compute; exact I).
  assert (Hr : NoDupObligations right)
    by (apply (bool_decide_unpack _); vm_compute; exact I).
  split_and!; [exact Hl|exact Hr|].
  exact (proj2 (MergeConsumeTriggerSlices_comm left right Hl Hr)).
Defined.

(** The merge respects [ConsumeTriggerSlicesEq]: replacing each input,
    free of duplicate obligations, by a slice that
    [ConsumeTriggerSlicesEq] accepts as equal gives a merge that
    [ConsumeTriggerSlicesEq] accepts as equal. *)
Theorem MergeConsumeTriggerSlices_respects_Eq
    (left left' right right' : list ConsumeTrigger.t) :
  NoDupObligations left → NoDupObligations right →
  ConsumeTriggerSlicesEq left left' = true →
  ConsumeTriggerSlicesEq right right' = true →
  ConsumeTriggerSlicesEq (MergeConsumeTriggerSlices left right)
    (MergeConsumeTriggerSlices left' right') = true.
Proof.
  intros Hl Hr Hel Her.
  apply ConsumeTriggerSlicesEq_true_NoDup in Hel;
    [|by apply NoDupObligations_NoDup].
  apply ConsumeTriggerSlicesEq_true_NoDup in Her;
    [|by apply NoDupObligations_NoDup].
  apply ConsumeTriggerSlicesEq_true_NoDup.
  - apply NoDupObligations_NoDup, MergeConsumeTriggerSlices_NoDupObligations.
  - by apply MergeConsumeTriggerSlices_Permutation.
Qed.

Lemma MergeConsumeTriggerSlices_respects_Eq_witness :
  let a := PtrLoad ConsumeTriggerTautology.mk in
  let b := ArgPass (TriggerIfNonNil.mk (SiteKey 5)) in
  let x := ast.mkExpr 1 10%Z 11%Z in
  let c1 := ConsumeTrigger.mk a x {[1; 2]}%Z true in
  let c2 := ConsumeTrigger.mk b x ∅ false in
  let c3 := ConsumeTrigger.mk a x {[2; 3]}%Z true in
  NoDupObligations [c1; c2] ∧ NoDupObligations [c3]
  ∧ ConsumeTriggerSlicesEq [c1; c2] [c2; c1] = true
  ∧ ConsumeTriggerSlicesEq [c3] [c3] = true
  ∧ ConsumeTriggerSlicesEq (MergeConsumeTriggerSlices [c1; c2] [c3])
      (MergeConsumeTriggerSlices [c2; c1] [c3]) = true.
Proof.
  intros a b x c1 c2 c3.
  assert (Hl : NoDupObligations [c1; c2])
    by (apply (bool_decide_unpack _); vm_compute; exact I).
  assert (Hr : NoDupObligations [c3])
    by (apply (bool_decide_unpack _); vm_compute; exact I).
  assert (Hel : ConsumeTriggerSlicesEq [c1; c2] [c2; c1] = true)
    by (vm_compute; reflexivity).
  assert (Her : ConsumeTriggerSlicesEq [c3] [c3] = true)
    by (vm_compute; reflexivity).
  split_and!; [exact Hl|exact Hr|exact Hel|exact Her|].
  exact (MergeConsumeTriggerSlices_respects_Eq _ _ _ _ Hl Hr Hel Her).
Defined.

(** The merge neither invents nor drops an obligation, and never adds to
    what the inputs grant: every merged record holds an obligation of an
    input record; against every input record with its obligation it has
    no guard that record lacks, it has a matched guard only if that record
    has one, and it has the same position; and every input record's
    obligation is held by a merged record. *)
Theorem MergeConsumeTriggerSlices_members (left right : list ConsumeTrigger.t) :
  (∀ m, m ∈ MergeConsumeTriggerSlices left right →
     (∃ d, d ∈ left ++ right ∧ obligation d = obligation m)
     ∧ ∀ d, d ∈ left ++ right → obligation d = obligation m →
         Guards m ⊆ Guards d
         ∧ (GuardMatched m = true → GuardMatched d = true)
         ∧ ConsumeTrigger.Pos m = ConsumeTrigger.Pos d)
  ∧ (∀ d, d ∈ left ++ right →
       ∃ m, m ∈ MergeConsumeTriggerSlices left right
            ∧ obligation m = obligation d).
Proof.
  split.
  - intros m Hm. apply elem_of_MergeConsumeTriggerSlices in Hm.
    destruct (occurrences (obligation m) (left ++ right)) as [|c cs] eqn:Hocc;
      [by apply elem_of_nil in Hm|].
    apply list_elem_of_singleton in Hm. split.
    + exists c.
      assert (c ∈ occurrences (obligation m) (left ++ right))
        as [? ?]%elem_of_occurrences; [|done].
      rewrite Hocc. apply elem_of_cons. auto.
    + intros d Hd Hk.
      assert (Hin : d ∈ c :: cs)
        by (rewrite <- Hocc; by apply elem_of_occurrences).
      split_and!.
      * intros g Hg. rewrite Hm in Hg.
        by apply (proj1 (Guards_foldl_intersected c cs g)).
      * intros Hg. rewrite Hm in Hg.
        by apply (proj1 (GuardMatched_foldl_intersected c cs)).
      * by apply Pos_obligation.
  - intros d Hd.
    assert (Hk : obligation d ∈ obligation <$> MergeConsumeTriggerSlices left right).
    { unfold MergeConsumeTriggerSlices. rewrite !elem_of_obligation_foldl.
      apply elem_of_app in Hd as [Hd | Hd]; [left; right|right];
        apply list_elem_of_fmap; eauto. }
    apply list_elem_of_fmap in Hk as (m & Hk & Hm). eauto.
Qed.

Lemma MergeConsumeTriggerSlices_members_witness :
  let a := PtrLoad ConsumeTriggerTautology.mk in
  let x := ast.mkExpr 1 10%Z 11%Z in
  let l := ConsumeTrigger.mk a x {[1; 2]}%Z true in
  let r := ConsumeTrigger.mk a x {[2; 3]}%Z false in
  r ∈ [l] ++ [r]
  ∧ ∃ m, m ∈ MergeConsumeTriggerSlices [l] [r] ∧ obligation m = obligation r.
Proof.
  intros a x l r.
  assert (Hr : r ∈ [l] ++ [r])
    by (apply (bool_decide_unpack _); vm_compute; exact I).
  split; [exact Hr|].
  exact (proj2 (MergeConsumeTriggerSlices_members [l] [r]) r Hr).
Defined.

Lemma length_foldl_addKey acc ks :
  length (foldl addKey acc ks) ≤ length acc + length ks.
Proof.
  revert acc. induction ks as [|k ks IH]; intros acc; simpl; [lia|].
  etransitivity; [apply IH|]. unfold addKey. case_decide; [lia|].
  rewrite length_app. simpl. lia.
Qed.

(** The merge is never longer than its two inputs together; it is empty
    exactly when both inputs are; and it is at least as long as an input
    without duplicate obligations. *)
Theorem MergeConsumeTriggerSlices_length (left right : list ConsumeTrigger.t) :
  length (MergeConsumeTriggerSlices left right) ≤ length left + length right
  ∧ (MergeConsumeTriggerSlices left right = [] ↔ left = [] ∧ right = [])
  ∧ (NoDupObligations left →
       length left ≤ length (MergeConsumeTriggerSlices left right))
  ∧ (NoDupObligations right →
       length right ≤ length (MergeConsumeTriggerSlices left right)).
Proof.
  assert (Hin : ∀ k, k ∈ obligation <$> MergeConsumeTriggerSlices left right
                     ↔ k ∈ obligation <$> left ∨ k ∈ obligation <$> right).
  { intros k. unfold MergeConsumeTriggerSlices.
    rewrite !elem_of_obligation_foldl, fmap_nil, elem_of_nil. tauto. }
  assert (Hlow : ∀ slice, NoDupObligations slice →
            (∀ k, k ∈ obligation <$> slice →
                  k ∈ obligation <$> MergeConsumeTriggerSlices left right) →
            length slice ≤ length (MergeConsumeTriggerSlices left right)).
  { intros slice Hnd Hsub.
    rewrite <- (length_fmap obligation slice),
      <- (length_fmap obligation (MergeConsumeTriggerSlices _ _)).
    by apply submseteq_length, NoDup_submseteq. }
  split_and!.
  - rewrite <- (length_fmap obligation), obligation_MergeConsumeTriggerSlices.
    etransitivity; [apply length_foldl_addKey|].
    rewrite length_app, !length_fmap. simpl. lia.
  - split.
    + intros Hnil. rewrite Hnil in Hin.
      split; [destruct left as [|x ?]|destruct right as [|x ?]]; try done;
        exfalso; apply (elem_of_nil (obligation x)), Hin;
        rewrite fmap_cons, elem_of_cons; auto.
    + by intros [-> ->].
  - intros Hnd. apply Hlow; [done|]. intros k Hk. apply Hin. auto.
  - intros Hnd. apply Hlow; [done|]. intros k Hk. apply Hin. auto.
Qed.

Lemma MergeConsumeTriggerSlices_length_witness :
  let c := GetRetFldConsumer (SiteKey 1) (ast.mkExpr 1 10%Z 11%Z) in
  NoDupObligations [c]
  ∧ length [c] ≤ length (MergeConsumeTriggerSlices [c] [c; c]).
Proof.
  intros c.
  assert (Hnd : NoDupObligations [c])
    by (apply (bool_decide_unpack _); vm_compute; exact I).
  split; [exact Hnd|].
  exact (proj1 (proj2 (proj2 (MergeConsumeTriggerSlices_length [c] [c; c]))) Hnd).
Defined.

(** ** Equality of slices, continued *)

(** [ConsumeTriggerSlicesEq] is transitive, whatever the slices hold. *)
Theorem ConsumeTriggerSlicesEq_trans (s1 s2 s3 : list ConsumeTrigger.t) :
  ConsumeTriggerSlicesEq s1 s2 = true →
  ConsumeTriggerSlicesEq s2 s3 = true →
  ConsumeTriggerSlicesEq s1 s3 = true.
Proof.
  rewrite !ConsumeTriggerSlicesEq_true. intros [Hl12 H12] [Hl23 H23].
  split; [congruence|]. intros x Hx. by apply H23, H12.
Qed.

Lemma ConsumeTriggerSlicesEq_trans_witness :
  let c1 := GetRetFldConsumer (SiteKey 1) (ast.mkExpr 1 10%Z 11%Z) in
  let c2 := GetEscapeFldConsumer (SiteKey 2) (ast.mkExpr 2 20%Z 21%Z) in
  ConsumeTriggerSlicesEq [c1; c2] [c2; c1] = true
  ∧ ConsumeTriggerSlicesEq [c2; c1] [c1; c2] = true
  ∧ ConsumeTriggerSlicesEq [c1; c2] [c1; c2] = true.
Proof.
  intros c1 c2.
  assert (H12 : ConsumeTriggerSlicesEq [c1; c2] [c2; c1] = true)
    by (vm_compute; reflexivity).
  assert (H23 : ConsumeTriggerSlicesEq [c2; c1] [c1; c2] = true)
    by (vm_compute; reflexivity).
  split_and!; [exact H12|exact H23|].
  exact (ConsumeTriggerSlicesEq_trans _ _ _ H12 H23).
Defined.

(** Without its precondition [ConsumeTriggerSlicesEq] only tests that the
    lengths are equal and that every record of the left slice has an [Eq]
    record in the right slice; so on a slice that repeats a record it can
    accept two slices that hold different records, and it is no longer
    symmetric. *)
Theorem ConsumeTriggerSlicesEq_duplicates :
  (∀ left right,
     ConsumeTriggerSlicesEq left right = true
     ↔ length left = length right
       ∧ ∀ l, l ∈ left → ∃ r, r ∈ right ∧ ConsumeTrigger.Eq l r = true)
  ∧ (∀ a b, ConsumeTrigger.Eq a b = false →
       ConsumeTriggerSlicesEq [a; a] [a; b] = true
       ∧ ConsumeTriggerSlicesEq [a; b] [a; a] = false).
Proof.
  split.
  - intros left right. rewrite ConsumeTriggerSlicesEq_true.
    split; intros [Hlen Hsub]; (split; [done|]).
    + intros l Hl. exists l. split; [by apply Hsub|by apply Eq_true_eq].
    + intros l Hl. by destruct (Hsub l Hl) as (r & Hr & ->%Eq_true_eq).
  - intros a b Hab.
    assert (Haa : ConsumeTrigger.Eq a a = true) by by apply Eq_true_eq.
    assert (Hba : ConsumeTrigger.Eq b a = false).
    { apply not_true_is_false. intros ->%Eq_true_eq. congruence. }
    unfold ConsumeTriggerSlicesEq. simpl. by rewrite Haa, Hba.
Qed.

Lemma ConsumeTriggerSlicesEq_duplicates_witness :
  let a := GetRetFldConsumer (SiteKey 1) (ast.mkExpr 1 10%Z 11%Z) in
  let b := GetEscapeFldConsumer (SiteKey 2) (ast.mkExpr 2 20%Z 21%Z) in
  ConsumeTrigger.Eq a b = false
  ∧ ConsumeTriggerSlicesEq [a; a] [a; b] = true
  ∧ ConsumeTriggerSlicesEq [a; b] [a; a] = false.
Proof.
  intros a b.
  assert (Hab : ConsumeTrigger.Eq a b = false) by (vm_compute; reflexivity).
  split; [exact Hab|].
  exact (proj2 ConsumeTriggerSlicesEq_duplicates a b Hab).
Defined.

(** Guarding respects [ConsumeTriggerSlicesEq]: two slices it accepts as
    equal are still accepted as equal after they are guarded with the same
    nonces. *)
Theorem ConsumeTriggerSliceAsGuarded_respects_Eq
    (left right : list ConsumeTrigger.t) (guards : list util.GuardNonce) :
  ConsumeTriggerSlicesEq left right = true →
  ConsumeTriggerSlicesEq (ConsumeTriggerSliceAsGuarded left guards)
    (ConsumeTriggerSliceAsGuarded right guards) = true.
Proof.
  rewrite !ConsumeTriggerSlicesEq_true, !ConsumeTriggerSliceAsGuarded_fmap,
    !length_fmap.
  intros [Hlen Hsub]. split; [done|].
  intros c (d & -> & Hd)%list_elem_of_fmap.
  apply list_elem_of_fmap. exists d. split; [done|]. by apply Hsub.
Qed.

Lemma ConsumeTriggerSliceAsGuarded_respects_Eq_witness :
  let c1 := GetRetFldConsumer (SiteKey 1) (ast.mkExpr 1 10%Z 11%Z) in
  let c2 := GetEscapeFldConsumer (SiteKey 2) (ast.mkExpr 2 20%Z 21%Z) in
  ConsumeTriggerSlicesEq [c1; c2] [c2; c1] = true
  ∧ ConsumeTriggerSlicesEq (ConsumeTriggerSliceAsGuarded [c1; c2] [7%Z])
      (ConsumeTriggerSliceAsGuarded [c2; c1] [7%Z]) = true.
Proof.
  intros c1 c2.
  assert (H : ConsumeTriggerSlicesEq [c1; c2] [c2; c1] = true)
    by (vm_compute; reflexivity).
  split; [exact H|].
  exact (ConsumeTriggerSliceAsGuarded_respects_Eq _ _ [7%Z] H).
Defined.
